(** * Micrositio de Buenas Practicas: interactive map

    A shallow embedding of the pan/zoom transform controller of the
    [InteractiveMap] component, of its marker denormalisation, and of the
    marker clustering engine it calls.

    Numbers.  The component computes with JavaScript numbers.  Pointer
    coordinates, wheel deltas and DOM measurements are finite, and are
    modelled by rationals ([Q]) with exact arithmetic: rounding is not
    modelled, and equalities between computed values are stated up to [==].
    Project records come from remote storage and from a form that runs
    [parseFloat], so their coordinates are modelled by [JsNumber], which
    adds [NaN] and the two infinities. *)

From Stdlib Require Import Reals Qreals Lra.
From Stdlib Require Import QArith Qminmax Qround Lqa ZArith Lia Bool List Permutation Sorted.
From Stdlib Require Import String.
Import ListNotations.
Open Scope Q_scope.

(** ** JavaScript built-ins on finite numbers *)

Definition Math_max (a b : Q) : Q := if Qlt_le_dec a b then b else a.
Definition Math_min (a b : Q) : Q := if Qlt_le_dec b a then b else a.

(** A number used as a condition is truthy when it is not zero. *)
Definition truthy (d : Q) : bool := negb (Qeq_bool d 0).

(** [clamp v lo hi]: the minimum of [hi] and of the maximum of [v] and
    [lo], written with the library's [Qmin] and [Qmax]. *)
Definition clamp (v lo hi : Q) : Q := Qmin (Qmax v lo) hi.

(** ** Data *)

Module Point.
Record t : Type := mk { x : Q; y : Q }.
End Point.

Module Transform.
Record t : Type := mk { x : Q; y : Q; scale : Q }.
End Transform.

Module DOMRect.
Record t : Type := mk { left : Q; top : Q; width : Q; height : Q }.
End DOMRect.

Module MouseEvent.
(** [onMarker] is [(e.target as HTMLElement).closest('.project-marker')]. *)
Record t : Type := mk { clientX : Q; clientY : Q; onMarker : bool }.
End MouseEvent.

Module WheelEvent.
Record t : Type := mk { clientX : Q; clientY : Q; deltaY : Q }.
End WheelEvent.

Module Touch.
Record t : Type := mk { clientX : Q; clientY : Q }.
End Touch.

Module TouchEvent.
Record t : Type := mk { touches : list Touch.t; onMarker : bool }.
End TouchEvent.

(** A project as far as the map reads it: [location] is optional, and a
    stored coordinate may be absent or any number. *)
Inductive JsNumber : Type :=
| Finite (q : Q)
| NaN
| PosInfinity
| NegInfinity.

Module Location.
Record t : Type := mk { x : option JsNumber; y : option JsNumber }.
End Location.

Module Project.
Record t : Type := mk { id : string; location : option Location.t }.
End Project.

(** Modelled from the spec: [Cluster] is declared in
    [utils/markerClustering], which is not among the sources.  It has a
    unique id, a centroid in logical-canvas coordinates and an ordered list
    of members; the component reads them as [id], [x], [y] and [projects].
    The id is only used as a key and compared for equality, and is a number
    here. *)
Module Cluster.
Record t : Type :=
  mk { id : nat; x : Q; y : Q; projects : list Project.t }.
End Cluster.

(** The component state that the gesture handlers read and write. *)
Module MapState.
Record t : Type := mk {
  transform : Transform.t;
  isDragging : bool;
  dragStart : Point.t;
  lastTouchDistance : option Q
}.
End MapState.

(** [useState] initial values. *)
Definition initialState : MapState.t :=
  MapState.mk (Transform.mk 0 0 1) false (Point.mk 0 0) None.

Definition setTransform (st : MapState.t) (t : Transform.t) : MapState.t :=
  MapState.mk t (MapState.isDragging st) (MapState.dragStart st)
              (MapState.lastTouchDistance st).

Definition setIsDragging (st : MapState.t) (b : bool) : MapState.t :=
  MapState.mk (MapState.transform st) b (MapState.dragStart st)
              (MapState.lastTouchDistance st).

Definition setDragStart (st : MapState.t) (p : Point.t) : MapState.t :=
  MapState.mk (MapState.transform st) (MapState.isDragging st) p
              (MapState.lastTouchDistance st).

Definition setLastTouchDistance (st : MapState.t) (d : option Q) : MapState.t :=
  MapState.mk (MapState.transform st) (MapState.isDragging st)
              (MapState.dragStart st) d.

(** ** Canvas constants *)

Definition mapWidth : Q := 2638.
Definition mapHeight : Q := 1822.
Definition mapOffsetX : Q := 455.
Definition mapOffsetY : Q := 521.
Definition effectiveMapWidth : Q := mapWidth - mapOffsetX.
Definition effectiveMapHeight : Q := mapHeight - mapOffsetY.

(** ** Boundary clamping

    [rect] is [mapRef.current?.getBoundingClientRect()]: [None] while the
    container is not mounted. *)
Definition constrainToBounds (rect : option DOMRect.t) (x y scale : Q) : Point.t :=
  match rect with
  | None => Point.mk x y
  | Some rect =>
      let scaledMapWidth := mapWidth * scale in
      let scaledMapHeight := mapHeight * scale in
      let scaledOffsetX := mapOffsetX * scale in
      let scaledOffsetY := mapOffsetY * scale in
      let minX := DOMRect.width rect - scaledMapWidth in
      let maxX := scaledOffsetX in
      let minY := DOMRect.height rect - scaledMapHeight in
      let maxY := scaledOffsetY in
      Point.mk (Math_min (Math_max x minX) maxX)
               (Math_min (Math_max y minY) maxY)
  end.

(** The constrained transform every handler stores:
    [{ x: constrainedPosition.x, y: constrainedPosition.y, scale }]. *)
Definition constrained (rect : option DOMRect.t) (raw : Transform.t) : Transform.t :=
  let constrainedPosition :=
    constrainToBounds rect (Transform.x raw) (Transform.y raw) (Transform.scale raw) in
  Transform.mk (Point.x constrainedPosition) (Point.y constrainedPosition)
               (Transform.scale raw).

(** ** Initial centring and reset *)

(** [initialScale] of [centerMap], [resetScale] of the Reset button. *)
Definition fitScale (rect : DOMRect.t) : Q :=
  let scaleToFitWidth := DOMRect.width rect / effectiveMapWidth in
  let scaleToFitHeight := DOMRect.height rect / effectiveMapHeight in
  let optimalScale := Math_min scaleToFitWidth scaleToFitHeight * 0.95 in
  Math_max optimalScale 0.6.

(** The centred transform before [constrainToBounds] is applied. *)
Definition centerRaw (rect : DOMRect.t) : Transform.t :=
  let initialScale := fitScale rect in
  let centerX := (DOMRect.width rect - effectiveMapWidth * initialScale) / 2 in
  let centerY := (DOMRect.height rect - effectiveMapHeight * initialScale) / 2 in
  Transform.mk centerX centerY initialScale.

Definition centerMap (rect : option DOMRect.t) (st : MapState.t) : MapState.t :=
  match rect with
  | None => st
  | Some r => setTransform st (constrained rect (centerRaw r))
  end.

Definition resetClick (rect : option DOMRect.t) (st : MapState.t) : MapState.t :=
  match rect with
  | None => st
  | Some r => setTransform st (constrained rect (centerRaw r))
  end.

(** ** Zoom limits and buttons *)

(** [absoluteMinZoom] of [handleWheel] and of the zoom-out button. *)
Definition absoluteMinZoom (rect : DOMRect.t) : Q :=
  let scaleToFitWidth := DOMRect.width rect / effectiveMapWidth in
  let scaleToFitHeight := DOMRect.height rect / effectiveMapHeight in
  let minZoomScale := Math_min scaleToFitWidth scaleToFitHeight * 0.9 in
  Math_max minZoomScale 0.6.

Definition zoomInClick (rect : option DOMRect.t) (st : MapState.t) : MapState.t :=
  let transform := MapState.transform st in
  let newScale := Math_min (Transform.scale transform * 1.2) 3 in
  setTransform st
    (constrained rect (Transform.mk (Transform.x transform) (Transform.y transform) newScale)).

Definition zoomOutClick (rect : option DOMRect.t) (st : MapState.t) : MapState.t :=
  match rect with
  | None => st
  | Some r =>
      let transform := MapState.transform st in
      let newScale := Math_max (Transform.scale transform * 0.8) (absoluteMinZoom r) in
      setTransform st
        (constrained rect (Transform.mk (Transform.x transform) (Transform.y transform) newScale))
  end.

(** ** Cluster zoom *)

Definition clusterZoomRaw (rect : DOMRect.t) (transform : Transform.t) (cluster : Cluster.t)
  : Transform.t :=
  let actualClusterX := Cluster.x cluster - mapOffsetX in
  let actualClusterY := Cluster.y cluster - mapOffsetY in
  let newScale := Math_min (Transform.scale transform * 2.5) 3 in
  let newX := DOMRect.width rect / 2 - actualClusterX * newScale in
  let newY := DOMRect.height rect / 2 - actualClusterY * newScale in
  Transform.mk newX newY newScale.

(** A one-project cluster opens the project preview and leaves the
    transform alone. *)
Definition handleClusterClick (rect : option DOMRect.t) (cluster : Cluster.t)
  (st : MapState.t) : MapState.t :=
  if Nat.eqb (List.length (Cluster.projects cluster)) 1 then st
  else match rect with
       | None => st
       | Some r => setTransform st (constrained rect (clusterZoomRaw r (MapState.transform st) cluster))
       end.

(** ** Mouse drag *)

Definition handleMouseDown (e : MouseEvent.t) (st : MapState.t) : MapState.t :=
  if MouseEvent.onMarker e then st
  else
    let transform := MapState.transform st in
    setDragStart (setIsDragging st true)
      (Point.mk (MouseEvent.clientX e - Transform.x transform)
                (MouseEvent.clientY e - Transform.y transform)).

Definition handleMouseMove (rect : option DOMRect.t) (e : MouseEvent.t)
  (st : MapState.t) : MapState.t :=
  if negb (MapState.isDragging st) then st
  else
    let transform := MapState.transform st in
    let rawNewX := MouseEvent.clientX e - Point.x (MapState.dragStart st) in
    let rawNewY := MouseEvent.clientY e - Point.y (MapState.dragStart st) in
    let constrainedPosition := constrainToBounds rect rawNewX rawNewY (Transform.scale transform) in
    setTransform st
      (Transform.mk (Point.x constrainedPosition) (Point.y constrainedPosition)
                    (Transform.scale transform)).

Definition handleMouseUp (st : MapState.t) : MapState.t := setIsDragging st false.

(** ** Wheel zoom *)

(** [newScale], [rawNewX] and [rawNewY] of [handleWheel]. *)
Definition wheelRaw (rect : DOMRect.t) (transform : Transform.t) (e : WheelEvent.t)
  : Transform.t :=
  let mouseX := WheelEvent.clientX e - DOMRect.left rect in
  let mouseY := WheelEvent.clientY e - DOMRect.top rect in
  let scaleFactor := if Qlt_le_dec 0 (WheelEvent.deltaY e) then 0.9 else 1.1 in
  let newScale :=
    Math_min (Math_max (Transform.scale transform * scaleFactor) (absoluteMinZoom rect)) 3 in
  let rawNewX := mouseX - (mouseX - Transform.x transform) * (newScale / Transform.scale transform) in
  let rawNewY := mouseY - (mouseY - Transform.y transform) * (newScale / Transform.scale transform) in
  Transform.mk rawNewX rawNewY newScale.

Definition handleWheel (rect : option DOMRect.t) (e : WheelEvent.t)
  (st : MapState.t) : MapState.t :=
  match rect with
  | None => st
  | Some r => setTransform st (constrained rect (wheelRaw r (MapState.transform st) e))
  end.

(** ** Touch gestures

    [Math.sqrt] is a parameter of the model: a touch distance is in general
    irrational, and nothing below depends on its value. *)
Section TouchGestures.

Variable Math_sqrt : Q -> Q.

Definition getTouchDistance (touches : list Touch.t) : option Q :=
  match touches with
  | t0 :: t1 :: _ =>
      let dx := Touch.clientX t0 - Touch.clientX t1 in
      let dy := Touch.clientY t0 - Touch.clientY t1 in
      Some (Math_sqrt (dx * dx + dy * dy))
  | _ => None
  end.

Definition handleTouchStart (e : TouchEvent.t) (st : MapState.t) : MapState.t :=
  match TouchEvent.touches e with
  | [t0] =>
      if TouchEvent.onMarker e then st
      else
        let transform := MapState.transform st in
        setDragStart (setIsDragging st true)
          (Point.mk (Touch.clientX t0 - Transform.x transform)
                    (Touch.clientY t0 - Transform.y transform))
  | [_; _] =>
      setLastTouchDistance (setIsDragging st false)
                           (getTouchDistance (TouchEvent.touches e))
  | _ => st
  end.

(** [newScale], [rawNewX] and [rawNewY] of the pinch branch. *)
Definition pinchRaw (rect : DOMRect.t) (transform : Transform.t)
  (lastTouchDistance currentDistance : Q) (t0 t1 : Touch.t) : Transform.t :=
  let scaleFactor := currentDistance / lastTouchDistance in
  let newScale := Math_min (Math_max (Transform.scale transform * scaleFactor) 0.6) 3 in
  let centerX := (Touch.clientX t0 + Touch.clientX t1) / 2 - DOMRect.left rect in
  let centerY := (Touch.clientY t0 + Touch.clientY t1) / 2 - DOMRect.top rect in
  let rawNewX := centerX - (centerX - Transform.x transform) * (newScale / Transform.scale transform) in
  let rawNewY := centerY - (centerY - Transform.y transform) * (newScale / Transform.scale transform) in
  Transform.mk rawNewX rawNewY newScale.

(** The single-touch drag branch. *)
Definition touchDrag (rect : option DOMRect.t) (t0 : Touch.t) (st : MapState.t)
  : MapState.t :=
  let transform := MapState.transform st in
  let rawNewX := Touch.clientX t0 - Point.x (MapState.dragStart st) in
  let rawNewY := Touch.clientY t0 - Point.y (MapState.dragStart st) in
  let constrainedPosition := constrainToBounds rect rawNewX rawNewY (Transform.scale transform) in
  setTransform st
    (Transform.mk (Point.x constrainedPosition) (Point.y constrainedPosition)
                  (Transform.scale transform)).

(** The two-touch pinch branch, entered when [lastTouchDistance] is truthy. *)
Definition touchPinch (rect : option DOMRect.t) (t0 t1 : Touch.t)
  (lastTouchDistance : Q) (st : MapState.t) : MapState.t :=
  match rect with
  | None => st
  | Some r =>
      match getTouchDistance [t0; t1] with
      | None => st
      | Some currentDistance =>
          if negb (truthy currentDistance) then st
          else
            setLastTouchDistance
              (setTransform st
                 (constrained rect
                    (pinchRaw r (MapState.transform st) lastTouchDistance currentDistance t0 t1)))
              (Some currentDistance)
      end
  end.

Definition handleTouchMove (rect : option DOMRect.t) (e : TouchEvent.t)
  (st : MapState.t) : MapState.t :=
  match TouchEvent.touches e, MapState.isDragging st, MapState.lastTouchDistance st with
  | [t0], true, _ => touchDrag rect t0 st
  | [t0; t1], _, Some d => if truthy d then touchPinch rect t0 t1 d st else st
  | _, _, _ => st
  end.

Definition handleTouchEnd (st : MapState.t) : MapState.t :=
  setLastTouchDistance (setIsDragging st false) None.

(** ** The controller as a transition system

    Every operation that can write the transform, with the viewport
    measurement that the DOM returns when the operation runs. *)
Inductive Event : Type :=
| Mount
| MouseDown (e : MouseEvent.t)
| MouseMove (e : MouseEvent.t)
| MouseUp
| Wheel (e : WheelEvent.t)
| TouchStart (e : TouchEvent.t)
| TouchMove (e : TouchEvent.t)
| TouchEnd
| ClusterClick (c : Cluster.t)
| ZoomIn
| ZoomOut
| ResetView.

Definition step (rect : option DOMRect.t) (ev : Event) (st : MapState.t) : MapState.t :=
  match ev with
  | Mount => centerMap rect st
  | MouseDown e => handleMouseDown e st
  | MouseMove e => handleMouseMove rect e st
  | MouseUp => handleMouseUp st
  | Wheel e => handleWheel rect e st
  | TouchStart e => handleTouchStart e st
  | TouchMove e => handleTouchMove rect e st
  | TouchEnd => handleTouchEnd st
  | ClusterClick c => handleClusterClick rect c st
  | ZoomIn => zoomInClick rect st
  | ZoomOut => zoomOutClick rect st
  | ResetView => resetClick rect st
  end.

Fixpoint run (evs : list (option DOMRect.t * Event)) (st : MapState.t) : MapState.t :=
  match evs with
  | [] => st
  | (rect, ev) :: rest => run rest (step rect ev st)
  end.

Definition reachable (st : MapState.t) : Prop :=
  exists evs, st = run evs initialState.

End TouchGestures.

(** An integer square root on rationals, exact on squares of rationals; it
    instantiates [Math_sqrt] in the worked examples. *)
Definition isqrtQ (q : Q) : Q :=
  Z.sqrt (Qnum q * Zpos (Qden q)) # Qden q.

(** ** Screen and logical coordinates *)

(** [screen = logical * scale + translate], and its inverse. *)
Definition toScreen (scale translate logical : Q) : Q := logical * scale + translate.
Definition toLogical (scale translate screen : Q) : Q := (screen - translate) / scale.

Definition scaleOf (st : MapState.t) : Q := Transform.scale (MapState.transform st).

(** What one operation does to the scale, given a scale in [[0.6, 3]]. *)
Definition scale_after (rect : option DOMRect.t) (ev : Event) (s s' : Q) : Prop :=
  match ev, rect with
  | Mount, Some r | ResetView, Some r =>
      s' == Qmax 0.6 (0.95 * Qmin (DOMRect.width r / 2183) (DOMRect.height r / 1301))
  | ZoomOut, Some r => s' = Math_max (s * 0.8) (absoluteMinZoom r)
  | Mount, None | ResetView, None | ZoomOut, None => s' = s
  | Wheel _, Some r =>
      s' <= 3 /\ (absoluteMinZoom r <= 3 -> absoluteMinZoom r <= s')
  | _, _ => s' <= 3
  end.

(** The operations that return early when the container has no measurement. *)
Definition needsRect (ev : Event) : bool :=
  match ev with
  | Mount | Wheel _ | ClusterClick _ | ZoomOut | ResetView => true
  | TouchMove e => Nat.eqb (List.length (TouchEvent.touches e)) 2
  | _ => false
  end.

(** The left and top edges of the canvas, which sit 455 and 521 logical
    units before the origin, are not inside the viewport. *)
Definition edgesOutside (st : MapState.t) : Prop :=
  let t := MapState.transform st in
  Transform.x t - mapOffsetX * Transform.scale t <= 0 /\
  Transform.y t - mapOffsetY * Transform.scale t <= 0.

(** Every operation of the run found the container measured. *)
Definition measured (evs : list (option DOMRect.t * Event)) : Prop :=
  Forall (fun re => fst re <> None) evs.

(** * Marker denormalisation *)

(** Division and multiplication of JavaScript numbers.  A finite result
    whose magnitude reaches [2^1024 - 2^970], where a double rounds to an
    infinity, overflows; below that the exact quotient or product stands
    for the rounded one.  Zero has no sign. *)
Definition overflowThreshold : Q := inject_Z (2 ^ 1024 - 2 ^ 970).

Definition js_finite (r : Q) : JsNumber :=
  if Qlt_le_dec r overflowThreshold then
    if Qlt_le_dec (- overflowThreshold) r then Finite r else NegInfinity
  else PosInfinity.

(** A magnitude far enough below the threshold for [x / 100 * 2638] to
    stay finite whatever the rounding. *)
Definition safeMagnitude : Q := inject_Z (10 ^ 300).

Definition js_sign (q : Q) : JsNumber :=
  if Qeq_bool q 0 then NaN
  else if Qle_bool 0 q then PosInfinity else NegInfinity.

Definition js_neg (n : JsNumber) : JsNumber :=
  match n with
  | Finite q => Finite (- q)
  | NaN => NaN
  | PosInfinity => NegInfinity
  | NegInfinity => PosInfinity
  end.

Definition js_mul (a b : JsNumber) : JsNumber :=
  match a, b with
  | NaN, _ | _, NaN => NaN
  | Finite p, Finite q => js_finite (p * q)
  | Finite p, PosInfinity | PosInfinity, Finite p => js_sign p
  | Finite p, NegInfinity | NegInfinity, Finite p => js_neg (js_sign p)
  | PosInfinity, PosInfinity | NegInfinity, NegInfinity => PosInfinity
  | PosInfinity, NegInfinity | NegInfinity, PosInfinity => NegInfinity
  end.

Definition js_div (a b : JsNumber) : JsNumber :=
  match a, b with
  | NaN, _ | _, NaN => NaN
  | Finite p, Finite q => if Qeq_bool q 0 then js_sign p else js_finite (p / q)
  | Finite _, PosInfinity | Finite _, NegInfinity => Finite 0
  | PosInfinity, Finite q => if Qle_bool 0 q then PosInfinity else NegInfinity
  | NegInfinity, Finite q => if Qle_bool 0 q then NegInfinity else PosInfinity
  | _, _ => NaN
  end.

(** An absent property reads as [undefined], which arithmetic converts to
    [NaN]. *)
Definition toNumber (v : option JsNumber) : JsNumber :=
  match v with
  | Some n => n
  | None => NaN
  end.

Definition isFinite (n : JsNumber) : bool :=
  match n with
  | Finite _ => true
  | _ => false
  end.

(** [markerX] and [markerY] of a single-project cluster.  [Some _] for
    [Location.x] is [typeof project.location.x === 'number']. *)
Definition markerPosition (project : Project.t) : JsNumber * JsNumber :=
  match Project.location project with
  | Some location =>
      match Location.x location with
      | Some x =>
          (js_mul (js_div x (Finite 100)) (Finite 2638),
           js_mul (js_div (toNumber (Location.y location)) (Finite 100)) (Finite 1822))
      | None => (js_div (Finite 2638) (Finite 2), js_div (Finite 1822) (Finite 2))
      end
  | None => (js_div (Finite 2638) (Finite 2), js_div (Finite 1822) (Finite 2))
  end.

Definition canvasCenter : JsNumber * JsNumber :=
  (Finite (2638 / 2), Finite (1822 / 2)).

(** A well-formed normalised position: both coordinates present, finite
    and within [[0, 100]]. *)
Definition wellFormed (project : Project.t) : bool :=
  match Project.location project with
  | Some (Location.mk (Some (Finite x)) (Some (Finite y))) =>
      Qle_bool 0 x && Qle_bool x 100 && Qle_bool 0 y && Qle_bool y 100
  | _ => false
  end.

(** * Marker clustering *)

Module Clustering.

(** Modelled from the spec: the [InvalidArgument] condition of section 4.1. *)
Inductive Error : Type := InvalidArgument.

(** Modelled from the spec: [utils/markerClustering] is not among the
    sources; this is the preprocessing step of section 4.1 with the
    recovery policy of section 7.  A well-formed normalised position is
    scaled to the 2638 x 1822 canvas; a missing or out-of-range one falls
    back to the canvas centre. *)
Definition denormalize (project : Project.t) : Q * Q :=
  match Project.location project with
  | Some (Location.mk (Some (Finite x)) (Some (Finite y))) =>
      if wellFormed project
      then (x / 100 * mapWidth, y / 100 * mapHeight)
      else (mapWidth / 2, mapHeight / 2)
  | _ => (mapWidth / 2, mapHeight / 2)
  end.

(** Modelled from the spec: the clustering radius [baseRadius / scale];
    the base radius is left open by the spec and is a parameter here. *)
Definition radius (baseRadius scale : Q) : Q := baseRadius / scale.

(** Modelled from the spec: the Euclidean pixel distance, kept as its
    square so that it stays rational.  [withinRadius_euclid] and
    [nearer_euclid] relate comparisons of squares to comparisons of the
    distances themselves. *)
Definition dist2 (a b : Q * Q) : Q :=
  (fst a - fst b) * (fst a - fst b) + (snd a - snd b) * (snd a - snd b).

(** Modelled from the spec: "the minimum such distance is less than or
    equal to the clustering radius", on the squared distance [d2]. *)
Definition withinRadius (d2 r : Q) : bool :=
  Qle_bool 0 r && Qle_bool d2 (r * r).

(** Modelled from the spec: the arithmetic mean of a list of numbers. *)
Definition sumQ (l : list Q) : Q := fold_right Qplus 0 l.

Definition mean (l : list Q) : Q := sumQ l / inject_Z (Z.of_nat (List.length l)).

(** Modelled from the spec: the centroid is the arithmetic mean of the
    members' denormalised positions. *)
Definition centroid (members : list Project.t) : Q * Q :=
  let ps := map denormalize members in
  (mean (map fst ps), mean (map snd ps)).

(** Modelled from the spec: "start a new cluster containing only this
    point"; the id is the index in formation order. *)
Definition newCluster (id : nat) (project : Project.t) : Cluster.t :=
  let p := denormalize project in
  Cluster.mk id (fst p) (snd p) [project].

(** Modelled from the spec: "append the point to that nearest cluster and
    recompute the cluster's centroid as the running mean of all its
    members' positions". *)
Definition appendMember (project : Project.t) (c : Cluster.t) : Cluster.t :=
  let members := Cluster.projects c ++ [project] in
  let m := centroid members in
  Cluster.mk (Cluster.id c) (fst m) (snd m) members.

(** Modelled from the spec: the nearest existing cluster, by distance to
    its current centroid; a later cluster replaces the candidate only
    when strictly nearer, so that ties go to the cluster formed first. *)
Fixpoint nearest (p : Q * Q) (clusters : list Cluster.t) (i : nat)
  (best : option (nat * Q)) : option (nat * Q) :=
  match clusters with
  | [] => best
  | c :: rest =>
      let d := dist2 p (Cluster.x c, Cluster.y c) in
      let best' :=
        match best with
        | None => Some (i, d)
        | Some (j, dj) => if Qlt_le_dec d dj then Some (i, d) else best
        end in
      nearest p rest (S i) best'
  end.

(** Modelled from the spec: the update of the cluster at index [i] in the
    clusters-so-far list. *)
Fixpoint updateAt (i : nat) (f : Cluster.t -> Cluster.t) (l : list Cluster.t)
  {struct l} : list Cluster.t :=
  match l, i with
  | [], _ => []
  | c :: rest, O => f c :: rest
  | c :: rest, S j => c :: updateAt j f rest
  end.

(** Modelled from the spec: one step of the greedy single pass. *)
Definition addPoint (r : Q) (clusters : list Cluster.t) (project : Project.t)
  : list Cluster.t :=
  match nearest (denormalize project) clusters 0%nat None with
  | Some (i, d) =>
      if withinRadius d r
      then updateAt i (appendMember project) clusters
      else clusters ++ [newCluster (List.length clusters) project]
  | None => clusters ++ [newCluster (List.length clusters) project]
  end.

(** Modelled from the spec: [cluster(points, scale)]; a scale that is
    not positive is rejected with [InvalidArgument]. *)
Definition cluster (baseRadius : Q) (points : list Project.t) (scale : Q)
  : Error + list Cluster.t :=
  if Qlt_le_dec 0 scale
  then inr (fold_left (addPoint (radius baseRadius scale)) points [])
  else inl InvalidArgument.

(** The member lists of the returned clusters, put together. *)
Definition members (clusters : list Cluster.t) : list Project.t :=
  List.concat (map Cluster.projects clusters).

(** The number of clusters returned. *)
Definition count (result : Error + list Cluster.t) : nat :=
  match result with
  | inr clusters => List.length clusters
  | inl _ => 0%nat
  end.

(** Two points farther apart than the radius [r]. *)
Definition far (r : Q) (a b : Project.t) : Prop :=
  r * r < dist2 (denormalize a) (denormalize b).

(** A list of one-member clusters, each sitting on its member. *)
Definition singletons (clusters : list Cluster.t) (points : list Project.t) : Prop :=
  Forall2 (fun c p => Cluster.projects c = [p] /\
                      (Cluster.x c, Cluster.y c) = denormalize p)
          clusters points.

Definition point (id : string) (x y : Q) : Project.t :=
  Project.mk id (Some (Location.mk (Some (Finite x)) (Some (Finite y)))).

(** Four points on a horizontal line, in the order they are clustered. *)
Definition fourPoints : list Project.t :=
  [point "A" 10 50; point "B" 13 50; point "C" 8 50; point "D" 15 50].

(** The three points of the end-to-end scenario. *)
Definition scenarioPoints : list Project.t :=
  [point "a" 10 10; point "b" 10.5 10.2; point "c" 90 90].

End Clustering.

(** * Hover tooltip placement ([ProjectHoverTooltip]) *)

Module ProjectHoverTooltip.

(** The [left], [top] and [width] style of the tooltip. *)
Record Placement : Type := mk { left : Q; top : Q; width : Q }.

(** [screenX] and [screenY]: the marker position, in map space, seen
    through the map transform. *)
Definition screenPosition (markerPosition : Point.t) (mapTransform : Transform.t)
  : Point.t :=
  let mapOffset := Point.mk (-455) (-521) in
  let screenX := (Point.x markerPosition + Point.x mapOffset) * Transform.scale mapTransform
                 + Transform.x mapTransform in
  let screenY := (Point.y markerPosition + Point.y mapOffset) * Transform.scale mapTransform
                 + Transform.y mapTransform in
  Point.mk screenX screenY.

(** [innerWidth] is [window.innerWidth], [None] when there is no [window]. *)
Definition isMobile (innerWidth : option Q) : bool :=
  match innerWidth with
  | Some w => if Qlt_le_dec w 768 then true else false
  | None => false
  end.

Definition cardWidth (innerWidth : option Q) (containerRect : DOMRect.t) : Q :=
  if isMobile innerWidth then Math_min 280 (DOMRect.width containerRect - 40) else 280.

Definition horizontalPadding (innerWidth : option Q) : Q :=
  if isMobile innerWidth then 10 else 20.

(** The component renders nothing without a container rectangle. *)
Definition placement (markerPosition : Point.t) (mapTransform : Transform.t)
  (containerRect : option DOMRect.t) (innerWidth : option Q) : option Placement :=
  match containerRect with
  | None => None
  | Some containerRect =>
      let screen := screenPosition markerPosition mapTransform in
      let cardWidth := cardWidth innerWidth containerRect in
      let tooltipHeight := if isMobile innerWidth then 400 else 340 in
      let tooltipOffset := 20 in
      let tooltipX := Point.x screen - cardWidth / 2 in
      let tooltipY := Point.y screen - tooltipHeight - tooltipOffset in
      let horizontalPadding := horizontalPadding innerWidth in
      let adjustedX :=
        Math_max horizontalPadding
          (Math_min tooltipX (DOMRect.width containerRect - cardWidth - horizontalPadding)) in
      let adjustedY := Math_max 20 tooltipY in
      Some (mk adjustedX adjustedY cardWidth)
  end.

End ProjectHoverTooltip.

(** * Convocatoria colours ([utils/convocatoriaColors]) *)

Module ConvocatoriaColors.

Record ConvocatoriaColor : Type :=
  mk { primary : string; hover : string; glow : string; badge : string }.

Definition CONVOCATORIA_COLORS : list ConvocatoriaColor :=
  [ mk "#3B82F6" "#2563EB" "rgba(59, 130, 246, 0.5)" "bg-blue-500";
    mk "#10B981" "#059669" "rgba(16, 185, 129, 0.5)" "bg-green-500";
    mk "#8B5CF6" "#7C3AED" "rgba(139, 92, 246, 0.5)" "bg-purple-500";
    mk "#EC4899" "#DB2777" "rgba(236, 72, 153, 0.5)" "bg-pink-500";
    mk "#F59E0B" "#D97706" "rgba(245, 158, 11, 0.5)" "bg-amber-500";
    mk "#EF4444" "#DC2626" "rgba(239, 68, 68, 0.5)" "bg-red-500";
    mk "#14B8A6" "#0D9488" "rgba(20, 184, 166, 0.5)" "bg-teal-500";
    mk "#F97316" "#EA580C" "rgba(249, 115, 22, 0.5)" "bg-orange-500";
    mk "#06B6D4" "#0891B2" "rgba(6, 182, 212, 0.5)" "bg-cyan-500";
    mk "#84CC16" "#65A30D" "rgba(132, 204, 22, 0.5)" "bg-lime-500" ].

(** [convocatoriaColorMap], a [Map<string, number>]: the entries in
    insertion order. *)
Definition ColorMap : Type := list (string * nat).

Definition Map_has (m : ColorMap) (key : string) : bool :=
  existsb (fun e => String.eqb (fst e) key) m.

Definition Map_get (m : ColorMap) (key : string) : option nat :=
  option_map snd (find (fun e => String.eqb (fst e) key) m).

(** [Map.prototype.set]: an existing key keeps its place. *)
Fixpoint Map_set (m : ColorMap) (key : string) (value : nat) : ColorMap :=
  match m with
  | [] => [(key, value)]
  | (k, v) :: rest =>
      if String.eqb k key then (key, value) :: rest else (k, v) :: Map_set rest key value
  end.

Definition Map_size (m : ColorMap) : nat := List.length m.

(** [!convocatoria]: [undefined] and the empty string are falsy. *)
Definition falsy (convocatoria : option string) : bool :=
  match convocatoria with
  | None => true
  | Some s => String.eqb s ""
  end.

(** The result is [CONVOCATORIA_COLORS[index]], [None] standing for
    [undefined]; the second component is the map after the call. *)
Definition getConvocatoriaColor (convocatoria : option string) (m : ColorMap)
  : option ConvocatoriaColor * ColorMap :=
  match convocatoria with
  | None => (nth_error CONVOCATORIA_COLORS 0, m)
  | Some c =>
      if falsy convocatoria then (nth_error CONVOCATORIA_COLORS 0, m)
      else if Map_has m c then
        match Map_get m c with
        | Some index => (nth_error CONVOCATORIA_COLORS index, m)
        | None => (None, m)
        end
      else
        let colorIndex := (Map_size m mod List.length CONVOCATORIA_COLORS)%nat in
        (nth_error CONVOCATORIA_COLORS colorIndex, Map_set m c colorIndex)
  end.

Definition getConvocatoriaBadgeClass (convocatoria : option string) (m : ColorMap)
  : option string * ColorMap :=
  let (color, m') := getConvocatoriaColor convocatoria m in
  (option_map badge color, m').

Definition resetConvocatoriaColorMap (m : ColorMap) : ColorMap := [].

(** [[...new Set(convocatorias)]]: the first occurrence of each string, in
    order. *)
Fixpoint uniq (seen l : list string) : list string :=
  match l with
  | [] => []
  | s :: rest =>
      if existsb (String.eqb s) seen then uniq seen rest
      else s :: uniq (s :: seen) rest
  end.

(** [Array.prototype.sort] without a comparator orders strings by their
    UTF-16 code units.  A label is held here as its UTF-8 bytes, which
    [String.leb] compares; the two orders agree on labels whose characters
    are all below U+E000 ([belowE000]), and may differ beyond.  The sorted
    arrangement of distinct strings is unique, and is computed by
    insertion. *)
Fixpoint insert (s : string) (l : list string) : list string :=
  match l with
  | [] => [s]
  | t :: rest => if String.leb s t then s :: t :: rest else t :: insert s rest
  end.

Definition sort (l : list string) : list string := fold_right insert [] l.

(** [sorted.forEach((convocatoria, index) => ...)], from position [index]. *)
Fixpoint registerFrom (index : nat) (sorted : list string) (m : ColorMap) : ColorMap :=
  match sorted with
  | [] => m
  | convocatoria :: rest =>
      let m' :=
        if Map_has m convocatoria then m
        else Map_set m convocatoria (index mod List.length CONVOCATORIA_COLORS)%nat in
      registerFrom (S index) rest m'
  end.

Definition registerConvocatorias (convocatorias : list string) (m : ColorMap) : ColorMap :=
  let sorted := sort (uniq [] convocatorias) in
  registerFrom 0 sorted m.

(** The calls a client can make on the module. *)
Inductive Call : Type :=
| GetColor (convocatoria : option string)
| Register (convocatorias : list string)
| ResetMap.

Definition perform (c : Call) (m : ColorMap) : ColorMap :=
  match c with
  | GetColor convocatoria => snd (getConvocatoriaColor convocatoria m)
  | Register convocatorias => registerConvocatorias convocatorias m
  | ResetMap => resetConvocatoriaColorMap m
  end.

Definition performAll (calls : list Call) (m : ColorMap) : ColorMap :=
  fold_left (fun m c => perform c m) calls m.

(** A sequence of calls without [resetConvocatoriaColorMap]. *)
Definition noReset (calls : list Call) : Prop :=
  Forall (fun c => c <> ResetMap) calls.

(** Every stored index is an index of the palette. *)
Definition valid (m : ColorMap) : Prop := Forall (fun e => (snd e < 10)%nat) m.

(** The indices [index mod 10] handed out from position [start] on. *)
Definition indicesFrom (start n : nat) : list nat :=
  map (fun i => (i mod List.length CONVOCATORIA_COLORS)%nat) (seq start n).

Definition leS (a b : string) : Prop := String.leb a b = true.

(** Every character of the label is below U+E000: its UTF-8 encoding has no
    byte from [0xEE] up. *)
Definition belowE000 (s : string) : bool :=
  forallb (fun c => N.ltb (Ascii.N_of_ascii c) 238) (list_ascii_of_string s).

End ConvocatoriaColors.

(** * Project list updates ([ProjectContext]) *)

Module ProjectContext.

Definition sameId (id : string) (p : Project.t) : bool := String.eqb (Project.id p) id.

(** [Array.prototype.findIndex]; [None] stands for [-1]. *)
Fixpoint findIndex (f : Project.t -> bool) (l : list Project.t) : option nat :=
  match l with
  | [] => None
  | p :: rest =>
      if f p then Some 0%nat
      else match findIndex f rest with
           | Some i => Some (S i)
           | None => None
           end
  end.

(** [updated[existingIndex] = project] on a copy of the array, for an index
    within it. *)
Fixpoint replaceAt (i : nat) (project : Project.t) (l : list Project.t) {struct l}
  : list Project.t :=
  match l, i with
  | [], _ => []
  | _ :: rest, O => project :: rest
  | p :: rest, S j => p :: replaceAt j project rest
  end.

(** The optimistic update of [addProject]. *)
Definition addProjectUpdate (project : Project.t) (prev : list Project.t)
  : list Project.t :=
  match findIndex (sameId (Project.id project)) prev with
  | Some existingIndex => replaceAt existingIndex project prev
  | None => prev ++ [project]
  end.

(** The optimistic update of [removeProject]. *)
Definition removeProjectUpdate (projectId : string) (prev : list Project.t)
  : list Project.t :=
  filter (fun p => negb (sameId projectId p)) prev.

Record State : Type := mk {
  projects : list Project.t;
  selectedProject : option Project.t
}.

(** What the server answered to the request that follows the optimistic
    update: success, or failure followed by a refetch that returns the
    server's list or fails too. *)
Inductive Sync : Type :=
| Synced
| Failed (refetched : option (list Project.t)).

Definition settle (sync : Sync) (st : State) : State :=
  match sync with
  | Synced => st
  | Failed (Some serverProjects) => mk serverProjects (selectedProject st)
  | Failed None => st
  end.

Definition addProject (project : Project.t) (sync : Sync) (st : State) : State :=
  settle sync (mk (addProjectUpdate project (projects st)) (selectedProject st)).

Definition removeProject (projectId : string) (sync : Sync) (st : State) : State :=
  let selected :=
    match selectedProject st with
    | Some p => if sameId projectId p then None else Some p
    | None => None
    end in
  settle sync (mk (removeProjectUpdate projectId (projects st)) selected).

Definition clearAllProjects (sync : Sync) (st : State) : State :=
  settle sync (mk [] None).

Definition ids (l : list Project.t) : list string := map Project.id l.

End ProjectContext.

(** * Admin panel: project list pages and state check boxes
    ([AdminDataEntry]) *)

Module AdminDataEntry.

Definition projectsPerPage : nat := 20.

(** [Array.prototype.slice(a, b)] for indices that are not negative. *)
Definition slice {A : Type} (a b : nat) (l : list A) : list A :=
  firstn (b - a) (skipn a l).

(** The projects listed on page [currentPage]. *)
Definition pageItems {A : Type} (currentPage : nat) (filteredProjects : list A) : list A :=
  slice ((currentPage - 1) * projectsPerPage) (currentPage * projectsPerPage) filteredProjects.

(** [Math.ceil(filteredProjects.length / projectsPerPage)]. *)
Definition totalPages {A : Type} (filteredProjects : list A) : nat :=
  Z.to_nat
    (Qceiling (inject_Z (Z.of_nat (List.length filteredProjects))
               / inject_Z (Z.of_nat projectsPerPage))).

(** The pagination controls are rendered when there is more than one page. *)
Definition paginationVisible {A : Type} (filteredProjects : list A) : bool :=
  Nat.ltb projectsPerPage (List.length filteredProjects).

Definition previousPage (prev : nat) : nat := Nat.max 1 (prev - 1).

Definition nextPage {A : Type} (filteredProjects : list A) (prev : nat) : nat :=
  Nat.min (totalPages filteredProjects) (prev + 1).

(** The implementation-state check boxes of the form. *)
Record Selection : Type := mk {
  implementationStates : list string;
  isNationalProject : bool
}.

Definition includes (l : list string) (s : string) : bool := existsb (String.eqb s) l.

(** The selection of the initial form and of [resetForm]. *)
Definition emptyForm : Selection := mk [] false.

Section StateCheckBoxes.

(** [Object.keys(MEXICAN_STATES_COORDS)]: the table is not among the
    sources; its keys are a parameter. *)
Variable allStates : list string.

(** [onChange] of the "Proyecto Nacional" check box. *)
Definition changeNational (checked : bool) (formData : Selection) : Selection :=
  if checked then mk allStates true else mk [] false.

(** [onChange] of the check box of [state]. *)
Definition changeState (state : string) (checked : bool) (formData : Selection)
  : Selection :=
  if checked then
    let newStates := implementationStates formData ++ [state] in
    mk newStates (Nat.eqb (List.length newStates) (List.length allStates))
  else
    mk (filter (fun s => negb (String.eqb s state)) (implementationStates formData)) false.

(** A click on the check box of [state], which is shown checked when
    [state] is selected. *)
Definition clickState (state : string) (formData : Selection) : Selection :=
  changeState state (negb (includes (implementationStates formData) state)) formData.

(** A click on the "Proyecto Nacional" box, which is shown checked when the
    flag is set. *)
Definition clickNational (formData : Selection) : Selection :=
  changeNational (negb (isNationalProject formData)) formData.

(** The boxes of the form: one per key of the table, and the national one. *)
Inductive Box : Type :=
| StateBox (state : string)
| NationalBox.

Definition rendered (box : Box) : Prop :=
  match box with
  | StateBox state => In state allStates
  | NationalBox => True
  end.

Definition clickBox (box : Box) (formData : Selection) : Selection :=
  match box with
  | StateBox state => clickState state formData
  | NationalBox => clickNational formData
  end.

Definition clickAll (boxes : list Box) (formData : Selection) : Selection :=
  fold_left (fun f box => clickBox box f) boxes formData.

(** The flag says "national" exactly when every state is selected. *)
Definition consistent (formData : Selection) : Prop :=
  NoDup (implementationStates formData) /\
  incl (implementationStates formData) allStates /\
  (isNationalProject formData = true <-> incl allStates (implementationStates formData)).

End StateCheckBoxes.

End AdminDataEntry.

(** * Marker tooltip and preview state ([InteractiveMap]) *)

Module MarkerTooltip.

(** The state written by the marker handlers; [selectedProject] is the
    context's selection. *)
Record t : Type := mk {
  hoveredProject : option Project.t;
  hoveredMarkerPosition : option (JsNumber * JsNumber);
  showPreview : bool;
  previewProject : option Project.t;
  selectedProject : option Project.t;
  isMobileTooltipVisible : bool;
  tappedMarkerId : option string
}.

Definition initial : t := mk None None false None None false None.

Definition handleMarkerClick (project : Project.t) (st : t) : t :=
  mk (hoveredProject st) (hoveredMarkerPosition st) true (Some project) (Some project)
     (isMobileTooltipVisible st) (tappedMarkerId st).

(** The four setters that hide the mobile tooltip. *)
Definition hideTooltip (st : t) : t :=
  mk None None (showPreview st) (previewProject st) (selectedProject st) false None.

Definition tapped (st : t) (project : Project.t) : bool :=
  match tappedMarkerId st with
  | Some id => String.eqb id (Project.id project)
  | None => false
  end.

(** [isHoverDevice] is the result of [isHoverDevice()] when the handler
    runs. *)
Definition handleMarkerTap (isHoverDevice : bool) (project : Project.t)
  (markerX markerY : JsNumber) (st : t) : t :=
  if negb isHoverDevice then
    if tapped st project then handleMarkerClick project st
    else mk (Some project) (Some (markerX, markerY)) (showPreview st) (previewProject st)
            (selectedProject st) true (Some (Project.id project))
  else st.

Definition handleMapClick (isHoverDevice : bool) (st : t) : t :=
  if negb isHoverDevice && isMobileTooltipVisible st then hideTooltip st else st.

(** The callback of the four-second timer set by [handleMarkerTap]. *)
Definition tooltipTimeout (st : t) : t := hideTooltip st.

(** [onViewDetails] of the hover tooltip, which is rendered when a project
    and a position are hovered. *)
Definition onViewDetails (st : t) : t :=
  match hoveredProject st, hoveredMarkerPosition st with
  | Some project, Some _ => hideTooltip (handleMarkerClick project st)
  | _, _ => st
  end.

Definition handleClosePreview (st : t) : t :=
  mk (hoveredProject st) (hoveredMarkerPosition st) false None None
     (isMobileTooltipVisible st) (tappedMarkerId st).

(** [onMouseEnter], [onMouseLeave] and [onClick] of a marker. *)
Definition onMouseEnter (isHoverDevice : bool) (project : Project.t)
  (markerX markerY : JsNumber) (st : t) : t :=
  if isHoverDevice then
    mk (Some project) (Some (markerX, markerY)) (showPreview st) (previewProject st)
       (selectedProject st) (isMobileTooltipVisible st) (tappedMarkerId st)
  else st.

Definition onMouseLeave (isHoverDevice : bool) (st : t) : t :=
  if isHoverDevice then
    mk None None (showPreview st) (previewProject st) (selectedProject st)
       (isMobileTooltipVisible st) (tappedMarkerId st)
  else st.

Definition onClick (isHoverDevice : bool) (project : Project.t) (st : t) : t :=
  if isHoverDevice then handleMarkerClick project st else st.

Inductive Event : Type :=
| Tap (isHoverDevice : bool) (project : Project.t) (markerX markerY : JsNumber)
| MapClick (isHoverDevice : bool)
| Timeout
| ViewDetails
| ClosePreview
| MouseEnter (isHoverDevice : bool) (project : Project.t) (markerX markerY : JsNumber)
| MouseLeave (isHoverDevice : bool)
| Click (isHoverDevice : bool) (project : Project.t).

Definition step (ev : Event) (st : t) : t :=
  match ev with
  | Tap h p x y => handleMarkerTap h p x y st
  | MapClick h => handleMapClick h st
  | Timeout => tooltipTimeout st
  | ViewDetails => onViewDetails st
  | ClosePreview => handleClosePreview st
  | MouseEnter h p x y => onMouseEnter h p x y st
  | MouseLeave h => onMouseLeave h st
  | Click h p => onClick h p st
  end.

Definition run (evs : list Event) (st : t) : t := fold_left (fun s ev => step ev s) evs st.

(** The backdrop is shown exactly while a marker is tapped, and a shown
    preview has its project. *)
Definition coherent (st : t) : Prop :=
  (isMobileTooltipVisible st = true <-> tappedMarkerId st <> None) /\
  (showPreview st = true -> previewProject st <> None).

End MarkerTooltip.

(** * Project filters ([ProjectContext]) *)

Module ProjectFilter.

Module Place.
Record t : Type := mk { state : string; city : string }.
End Place.

(** A project as far as the filter reads it. *)
Module Entry.
Record t : Type := mk {
  name : string;
  description : option string;
  category : string;
  thematicArea : string;
  state : string;
  municipality : string;
  location : option Place.t
}.
End Entry.

Module FilterState.
Record t : Type := mk {
  searchQuery : string;
  selectedCategories : list string;
  selectedThematicAreas : list string;
  selectedLocations : list string
}.
End FilterState.

Definition initialFilters : FilterState.t := FilterState.mk "" [] [] [].

(** [a || b] on strings: the empty string is falsy. *)
Definition orElse (a b : string) : string := if String.eqb a "" then b else a.

(** [String.prototype.includes]. *)
Fixpoint includes (s query : string) : bool :=
  String.prefix query s ||
  match s with
  | EmptyString => false
  | String _ rest => includes rest query
  end.

(** [Array.prototype.includes] on strings. *)
Definition listIncludes (l : list string) (s : string) : bool := existsb (String.eqb s) l.

Definition isEmpty {A : Type} (l : list A) : bool :=
  match l with
  | [] => true
  | _ => false
  end.

Section Filter.

(** [String.prototype.toLowerCase] is a parameter. *)
Variable toLowerCase : string -> string.

Definition locationCity (project : Entry.t) : string :=
  orElse (orElse (match Entry.location project with
                  | Some l => Place.city l
                  | None => ""%string
                  end) (Entry.municipality project)) "".

Definition locationState (project : Entry.t) : string :=
  orElse (orElse (match Entry.location project with
                  | Some l => Place.state l
                  | None => ""%string
                  end) (Entry.state project)) "".

Definition matchesSearch (filters : FilterState.t) (project : Entry.t) : bool :=
  if String.eqb (FilterState.searchQuery filters) "" then true
  else
    let query := toLowerCase (FilterState.searchQuery filters) in
    let matchesName := includes (toLowerCase (Entry.name project)) query in
    let matchesDescription :=
      includes (toLowerCase (match Entry.description project with
                             | Some d => orElse d ""
                             | None => ""%string
                             end)) query in
    let matchesLocation :=
      includes (toLowerCase (locationCity project ++ " " ++ locationState project)) query in
    negb (negb matchesName && negb matchesDescription && negb matchesLocation).

Definition matchesCategory (filters : FilterState.t) (project : Entry.t) : bool :=
  if negb (isEmpty (FilterState.selectedCategories filters))
  then listIncludes (FilterState.selectedCategories filters) (Entry.category project)
  else true.

Definition matchesThematicArea (filters : FilterState.t) (project : Entry.t) : bool :=
  if negb (isEmpty (FilterState.selectedThematicAreas filters))
  then listIncludes (FilterState.selectedThematicAreas filters) (Entry.thematicArea project)
  else true.

Definition matchesLocation (filters : FilterState.t) (project : Entry.t) : bool :=
  if negb (isEmpty (FilterState.selectedLocations filters))
  then listIncludes (FilterState.selectedLocations filters) (locationState project)
  else true.

(** The predicate of [projects.filter(...)]: the four checks in turn, each
    returning [false] at the first failure. *)
Definition keeps (filters : FilterState.t) (project : Entry.t) : bool :=
  if negb (matchesSearch filters project) then false
  else if negb (matchesCategory filters project) then false
  else if negb (matchesThematicArea filters project) then false
  else if negb (matchesLocation filters project) then false
  else true.

Definition filteredProjects (filters : FilterState.t) (projects : list Entry.t)
  : list Entry.t :=
  filter (keeps filters) projects.

End Filter.

(** [Partial<FilterState>] and the spread of [setFilters]. *)
Module PartialFilterState.
Record t : Type := mk {
  searchQuery : option string;
  selectedCategories : option (list string);
  selectedThematicAreas : option (list string);
  selectedLocations : option (list string)
}.
End PartialFilterState.

Definition spread {A : Type} (prev : A) (new : option A) : A :=
  match new with
  | Some v => v
  | None => prev
  end.

Definition setFilters (newFilters : PartialFilterState.t) (prev : FilterState.t)
  : FilterState.t :=
  FilterState.mk
    (spread (FilterState.searchQuery prev) (PartialFilterState.searchQuery newFilters))
    (spread (FilterState.selectedCategories prev)
            (PartialFilterState.selectedCategories newFilters))
    (spread (FilterState.selectedThematicAreas prev)
            (PartialFilterState.selectedThematicAreas newFilters))
    (spread (FilterState.selectedLocations prev)
            (PartialFilterState.selectedLocations newFilters)).

Definition resetFilters (prev : FilterState.t) : FilterState.t := initialFilters.

(** [wider] filters have the same search text and, for each selection,
    either the same list or none. *)
Definition cleared (selection selection' : list string) : Prop :=
  selection' = selection \/ selection' = [].

Definition wider (filters filters' : FilterState.t) : Prop :=
  (FilterState.searchQuery filters' = FilterState.searchQuery filters \/
   FilterState.searchQuery filters' = ""%string) /\
  cleared (FilterState.selectedCategories filters) (FilterState.selectedCategories filters') /\
  cleared (FilterState.selectedThematicAreas filters)
          (FilterState.selectedThematicAreas filters') /\
  cleared (FilterState.selectedLocations filters) (FilterState.selectedLocations filters').

End ProjectFilter.

(** * Properties of the transform controller *)

(** ** [Math.min] and [Math.max] *)

Lemma Math_max_Qmax (a b : Q) : Math_max a b == Qmax a b.
Proof.
  unfold Math_max. destruct (Qlt_le_dec a b) as [Hlt | Hle].
  - rewrite Q.max_r; [reflexivity | lra].
  - rewrite Q.max_l; [reflexivity | exact Hle].
Qed.

Lemma Math_min_Qmin (a b : Q) : Math_min a b == Qmin a b.
Proof.
  unfold Math_min. destruct (Qlt_le_dec b a) as [Hlt | Hle].
  - rewrite Q.min_r; [reflexivity | lra].
  - rewrite Q.min_l; [reflexivity | exact Hle].
Qed.

Lemma Math_max_lub (a b : Q) : a <= Math_max a b /\ b <= Math_max a b.
Proof. unfold Math_max. destruct (Qlt_le_dec a b); lra. Qed.

Lemma Math_min_glb (a b : Q) : Math_min a b <= a /\ Math_min a b <= b.
Proof. unfold Math_min. destruct (Qlt_le_dec b a); lra. Qed.

Lemma Math_min_ge (a b c : Q) : c <= a -> c <= b -> c <= Math_min a b.
Proof. unfold Math_min. destruct (Qlt_le_dec b a); lra. Qed.

Lemma Math_max_le (a b c : Q) : a <= c -> b <= c -> Math_max a b <= c.
Proof. unfold Math_max. destruct (Qlt_le_dec a b); lra. Qed.

(** The composition [Math.min(Math.max(v, lo), hi)] of the source. *)
Lemma min_max_clamp (v lo hi : Q) :
  Math_min (Math_max v lo) hi == clamp v lo hi.
Proof.
  unfold clamp. rewrite Math_min_Qmin.
  apply Q.min_compat; [apply Math_max_Qmax | reflexivity].
Qed.

Lemma min_max_range (v lo hi : Q) :
  Math_min (Math_max v lo) hi <= hi /\
  (lo <= hi -> lo <= Math_min (Math_max v lo) hi).
Proof.
  unfold Math_min, Math_max.
  destruct (Qlt_le_dec v lo); destruct (Qlt_le_dec hi _); split; lra.
Qed.

(** Clamping a clamped value changes nothing, whatever the order of the
    two bounds. *)
Lemma min_max_idem (v lo hi : Q) :
  Math_min (Math_max (Math_min (Math_max v lo) hi) lo) hi
  = Math_min (Math_max v lo) hi.
Proof.
  unfold Math_min, Math_max.
  repeat (destruct (Qlt_le_dec _ _); try reflexivity; try lra).
Qed.

(** ** Boundary clamping *)

(** The result written with [Qmin] and [Qmax]. *)
Lemma constrainToBounds_clamp :
  forall (rect : DOMRect.t) (x y scale : Q),
    let w := DOMRect.width rect in
    let h := DOMRect.height rect in
    Point.x (constrainToBounds (Some rect) x y scale)
      == clamp x (w - 2638 * scale) (455 * scale) /\
    Point.y (constrainToBounds (Some rect) x y scale)
      == clamp y (h - 1822 * scale) (521 * scale).
Proof.
  intros rect x y scale w h. cbn [constrainToBounds Point.x Point.y].
  split; apply min_max_clamp.
Qed.

(** When the lower bound does not exceed the upper one the result lies in
    the interval; it never exceeds the upper bound. *)
Lemma constrainToBounds_range (rect : DOMRect.t) (x y scale : Q) :
  let p := constrainToBounds (Some rect) x y scale in
  Point.x p <= mapOffsetX * scale /\
  Point.y p <= mapOffsetY * scale /\
  (DOMRect.width rect - mapWidth * scale <= mapOffsetX * scale ->
   DOMRect.width rect - mapWidth * scale <= Point.x p) /\
  (DOMRect.height rect - mapHeight * scale <= mapOffsetY * scale ->
   DOMRect.height rect - mapHeight * scale <= Point.y p).
Proof.
  cbn [constrainToBounds Point.x Point.y].
  repeat split; apply min_max_range.
Qed.

(** The composition [Math.min(Math.max(v, lo), hi)] case by case: it is
    [v] brought into [[lo, hi]] when [lo <= hi], and [hi] otherwise. *)
Lemma min_max_cases (v lo hi : Q) :
  let r := Math_min (Math_max v lo) hi in
  r <= hi /\
  (lo <= hi ->
   lo <= r /\ (v < lo -> r = lo) /\ (lo <= v <= hi -> r = v) /\ (hi < v -> r = hi)) /\
  (hi < lo -> r = hi).
Proof.
  cbv zeta. unfold Math_min, Math_max.
  destruct (Qlt_le_dec v lo); destruct (Qlt_le_dec hi _);
    repeat split; intros; try reflexivity; lra.
Qed.

(** C3, as the code has it.  With a measured viewport of width [w] and
    height [h], [constrainToBounds] returns
    [min(max(x, w - 2638*scale), 455*scale)] and
    [min(max(y, h - 1822*scale), 521*scale)].  The result never exceeds the
    upper bound.  When the lower bound is at most the upper bound, it is
    the coordinate clamped into the interval: the lower bound below it, the
    coordinate inside it, the upper bound above it.  When the lower bound
    exceeds the upper bound, it is the upper bound, which lies outside the
    empty interval. *)
Theorem constrainToBounds_bounds :
  forall (rect : DOMRect.t) (x y scale : Q),
    let p := constrainToBounds (Some rect) x y scale in
    let loX := DOMRect.width rect - 2638 * scale in
    let hiX := 455 * scale in
    let loY := DOMRect.height rect - 1822 * scale in
    let hiY := 521 * scale in
    (Point.x p = Math_min (Math_max x loX) hiX /\
     Point.x p <= hiX /\
     (loX <= hiX ->
      loX <= Point.x p /\ (x < loX -> Point.x p = loX) /\
      (loX <= x <= hiX -> Point.x p = x) /\ (hiX < x -> Point.x p = hiX)) /\
     (hiX < loX -> Point.x p = hiX)) /\
    (Point.y p = Math_min (Math_max y loY) hiY /\
     Point.y p <= hiY /\
     (loY <= hiY ->
      loY <= Point.y p /\ (y < loY -> Point.y p = loY) /\
      (loY <= y <= hiY -> Point.y p = y) /\ (hiY < y -> Point.y p = hiY)) /\
     (hiY < loY -> Point.y p = hiY)).
Proof.
  intros rect x y scale p loX hiX loY hiY.
  split; (split; [reflexivity | ]).
  - apply (min_max_cases x loX hiX).
  - apply (min_max_cases y loY hiY).
Qed.

Lemma constrainToBounds_bounds_witness :
  let rect := DOMRect.mk 0 0 800 600 in
  800 - 2638 * 1 <= 455 * 1 /\
  Point.x (constrainToBounds (Some rect) (-2000) 0 1) = 800 - 2638 * 1 /\
  Point.x (constrainToBounds (Some rect) 100 0 1) = 100 /\
  Point.x (constrainToBounds (Some rect) 900 0 1) = 455 * 1.
Proof.
  assert (H : 800 - 2638 * 1 <= 455 * 1) by discriminate.
  split; [exact H | ].
  pose proof (constrainToBounds_bounds (DOMRect.mk 0 0 800 600) (-2000) 0 1) as Hlow.
  pose proof (constrainToBounds_bounds (DOMRect.mk 0 0 800 600) 100 0 1) as Hmid.
  pose proof (constrainToBounds_bounds (DOMRect.mk 0 0 800 600) 900 0 1) as Hhigh.
  cbv zeta in Hlow, Hmid, Hhigh.
  destruct Hlow as [[_ [_ [Hlow _]]] _].
  destruct Hmid as [[_ [_ [Hmid _]]] _].
  destruct Hhigh as [[_ [_ [Hhigh _]]] _].
  split; [ | split].
  - apply (proj1 (proj2 (Hlow H))). reflexivity.
  - apply (proj1 (proj2 (proj2 (Hmid H)))). split; discriminate.
  - apply (proj2 (proj2 (proj2 (Hhigh H)))). reflexivity.
Defined.

(** On a 1920 x 800 viewport at the mount-time scale 0.6 the lower bound
    337.2 exceeds the upper bound 273: the centred position
    [(305.1, 9.7)] comes back with [x = 273], which is not within the
    bounds. *)
Lemma constrainToBounds_outside_interval :
  let rect := DOMRect.mk 0 0 1920 800 in
  let p := constrainToBounds (Some rect) 305.1 9.7 0.6 in
  Point.x p == 273 /\
  ~ (DOMRect.width rect - 2638 * 0.6 <= Point.x p <= 455 * 0.6).
Proof.
  cbv zeta. split; [vm_compute; reflexivity | ].
  vm_compute. intros [H _]. apply H. reflexivity.
Qed.

(** C7. [constrainToBounds] is idempotent: applied to the position it
    returned, at the same scale and viewport measurement, it returns that
    position. *)
Theorem constrainToBounds_idempotent :
  forall (rect : option DOMRect.t) (x y scale : Q),
    let p := constrainToBounds rect x y scale in
    constrainToBounds rect (Point.x p) (Point.y p) scale = p.
Proof.
  intros [rect | ] x y scale; cbn [constrainToBounds Point.x Point.y].
  - f_equal; apply min_max_idem.
  - reflexivity.
Qed.

(** ** Initial centring and reset *)

Lemma Qhalf (a : Q) : a / 2 == a * (1 # 2).
Proof. field. Qed.

Lemma effectiveMapWidth_eq : effectiveMapWidth == 2183.
Proof. reflexivity. Qed.

Lemma effectiveMapHeight_eq : effectiveMapHeight == 1301.
Proof. reflexivity. Qed.

Lemma fitScale_eq (rect : DOMRect.t) :
  fitScale rect
  == Qmax 0.6 (0.95 * Qmin (DOMRect.width rect / 2183) (DOMRect.height rect / 1301)).
Proof.
  unfold fitScale. rewrite Math_max_Qmax, Math_min_Qmin.
  rewrite effectiveMapWidth_eq, effectiveMapHeight_eq.
  rewrite Q.max_comm. apply Q.max_compat; [reflexivity | ring].
Qed.

Lemma fitScale_ge (rect : DOMRect.t) : 0.6 <= fitScale rect.
Proof. unfold fitScale. apply Math_max_lub. Qed.

(** C4. With a measured viewport of width [w] and height [h], the
    mount-time centring and the Reset button store the scale
    [max(0.6, 0.95 * min(w/2183, h/1301))], and the position they hand to
    [constrainToBounds] is [((w - 2183*scale)/2, (h - 1301*scale)/2)], which
    leaves equal margins on both sides of the effective canvas. *)
Theorem centerMap_reset_fit :
  forall (rect : DOMRect.t) (st : MapState.t),
    let w := DOMRect.width rect in
    let h := DOMRect.height rect in
    let s := Qmax 0.6 (0.95 * Qmin (w / 2183) (h / 1301)) in
    let raw := centerRaw rect in
    Transform.scale raw == s /\
    Transform.x raw == (w - 2183 * s) / 2 /\
    Transform.y raw == (h - 1301 * s) / 2 /\
    Transform.x raw == w - (Transform.x raw + 2183 * s) /\
    Transform.y raw == h - (Transform.y raw + 1301 * s) /\
    MapState.transform (centerMap (Some rect) st) = constrained (Some rect) raw /\
    MapState.transform (resetClick (Some rect) st) = constrained (Some rect) raw /\
    Transform.scale (MapState.transform (centerMap (Some rect) st)) == s /\
    Transform.scale (MapState.transform (resetClick (Some rect) st)) == s.
Proof.
  intros rect st w h s raw.
  assert (Hs : Transform.scale raw == s) by apply fitScale_eq.
  assert (Hx : Transform.x raw == (w - 2183 * s) / 2).
  { unfold raw, centerRaw. cbn [Transform.x]. fold w.
    rewrite effectiveMapWidth_eq, fitScale_eq. reflexivity. }
  assert (Hy : Transform.y raw == (h - 1301 * s) / 2).
  { unfold raw, centerRaw. cbn [Transform.y]. fold h.
    rewrite effectiveMapHeight_eq, fitScale_eq. reflexivity. }
  repeat split; try assumption; try reflexivity.
  - rewrite Hx. field.
  - rewrite Hy. field.
Qed.

(** The stored position is the centred one exactly when the viewport is
    narrow enough for the clamp to be inactive. *)
Lemma centerMap_unclamped (rect : DOMRect.t) (st : MapState.t) :
  DOMRect.width rect <= 3093 * fitScale rect ->
  DOMRect.height rect <= 2343 * fitScale rect ->
  MapState.transform (centerMap (Some rect) st) = centerRaw rect.
Proof.
  intros Hw Hh.
  cbn [centerMap setTransform MapState.transform].
  unfold constrained, centerRaw.
  cbn [constrainToBounds Transform.x Transform.y Transform.scale Point.x Point.y].
  set (s := fitScale rect) in *.
  set (w := DOMRect.width rect) in *. set (h := DOMRect.height rect) in *.
  assert (Ew := effectiveMapWidth_eq). assert (Eh := effectiveMapHeight_eq).
  set (ew := effectiveMapWidth) in *. set (eh := effectiveMapHeight) in *.
  clearbody s w h ew eh.
  unfold mapWidth, mapHeight, mapOffsetX, mapOffsetY, Math_min, Math_max.
  f_equal.
  - destruct (Qlt_le_dec ((w - ew * s) / 2) (w - 2638 * s)) as [H1 | H1].
    + exfalso. rewrite Ew, Qhalf in H1. lra.
    + destruct (Qlt_le_dec (455 * s) ((w - ew * s) / 2)) as [H2 | H2];
        [exfalso; rewrite Ew, Qhalf in H2; lra | reflexivity].
  - destruct (Qlt_le_dec ((h - eh * s) / 2) (h - 1822 * s)) as [H1 | H1].
    + exfalso. rewrite Eh, Qhalf in H1. lra.
    + destruct (Qlt_le_dec (521 * s) ((h - eh * s) / 2)) as [H2 | H2];
        [exfalso; rewrite Eh, Qhalf in H2; lra | reflexivity].
Qed.

(** On a 1920 x 800 viewport the fitted scale is the floor 0.6 and the
    centred position 305.1 exceeds the right bound 273, which is what is
    stored. *)
Example centerMap_clamped :
  let rect := DOMRect.mk 0 0 1920 800 in
  Transform.x (centerRaw rect) == 305.1 /\
  Transform.x (MapState.transform (centerMap (Some rect) initialState)) == 273.
Proof. split; vm_compute; reflexivity. Qed.

(** ** Panning *)

Lemma handleMouseMove_idle (rect : option DOMRect.t) (e : MouseEvent.t) (st : MapState.t) :
  MapState.isDragging st = false -> handleMouseMove rect e st = st.
Proof. intros H. unfold handleMouseMove. rewrite H. reflexivity. Qed.

Lemma handleMouseMove_scale (rect : option DOMRect.t) (e : MouseEvent.t) (st : MapState.t) :
  Transform.scale (MapState.transform (handleMouseMove rect e st))
  = Transform.scale (MapState.transform st).
Proof. unfold handleMouseMove. destruct (MapState.isDragging st); reflexivity. Qed.



Lemma constrainToBounds_compat (rect : option DOMRect.t) (x x' y y' scale : Q) :
  x == x' -> y == y' ->
  Point.x (constrainToBounds rect x y scale) == Point.x (constrainToBounds rect x' y' scale) /\
  Point.y (constrainToBounds rect x y scale) == Point.y (constrainToBounds rect x' y' scale).
Proof.
  intros Hx Hy. destruct rect as [rect | ]; cbn [constrainToBounds Point.x Point.y].
  - rewrite !min_max_clamp. unfold clamp. rewrite Hx, Hy. split; reflexivity.
  - split; assumption.
Qed.

(** A press at [(cx, cy)] followed by a move to [(cx + dx, cy + dy)] adds
    the delta to the translation, then clamps. *)
Lemma drag_adds_delta (rect : option DOMRect.t) (st : MapState.t) (cx cy dx dy : Q) :
  let t := MapState.transform st in
  let t' := MapState.transform
              (handleMouseMove rect (MouseEvent.mk (cx + dx) (cy + dy) false)
                 (handleMouseDown (MouseEvent.mk cx cy false) st)) in
  let p := constrainToBounds rect (Transform.x t + dx) (Transform.y t + dy) (Transform.scale t) in
  Transform.scale t' = Transform.scale t /\
  Transform.x t' == Point.x p /\ Transform.y t' == Point.y p.
Proof.
  cbn. split; [reflexivity | ].
  apply constrainToBounds_compat; ring.
Qed.

(** ** Zoom anchoring *)


Lemma toScreen_toLogical (scale translate screen : Q) :
  ~ scale == 0 -> toScreen scale translate (toLogical scale translate screen) == screen.
Proof. intros H. unfold toScreen, toLogical. field. exact H. Qed.

Lemma absoluteMinZoom_ge (rect : DOMRect.t) : 0.6 <= absoluteMinZoom rect.
Proof. unfold absoluteMinZoom. apply Math_max_lub. Qed.

Lemma wheelRaw_scale (rect : DOMRect.t) (t : Transform.t) (e : WheelEvent.t) :
  0.6 <= Transform.scale (wheelRaw rect t e) <= 3.
Proof.
  unfold wheelRaw. cbn [Transform.scale]. split.
  - apply Math_min_ge; [ | lra].
    pose proof (absoluteMinZoom_ge rect) as Hm.
    pose proof (Math_max_lub (Transform.scale t *
      (if Qlt_le_dec 0 (WheelEvent.deltaY e) then 0.9 else 1.1)) (absoluteMinZoom rect)) as [_ Hl].
    lra.
  - apply Math_min_glb.
Qed.

Lemma pinchRaw_scale (rect : DOMRect.t) (t : Transform.t) (d c : Q) (t0 t1 : Touch.t) :
  0.6 <= Transform.scale (pinchRaw rect t d c t0 t1) <= 3.
Proof.
  unfold pinchRaw. cbn [Transform.scale]. split.
  - apply Math_min_ge; [apply Math_max_lub | lra].
  - apply Math_min_glb.
Qed.

Lemma anchor_fixed (p x s s' : Q) :
  0 < s -> 0 < s' ->
  toLogical s' (p - (p - x) * (s' / s)) p == toLogical s x p.
Proof. intros Hs Hs'. unfold toLogical. field. split; lra. Qed.

(** C2. For a transform of positive scale (every in-bounds scale is), the
    translation that the wheel handler and the pinch handler compute before
    clamping is [p - (p - x) * (scale'/scale)] on each axis, [p] being the
    cursor, respectively the midpoint of the two touches, relative to the
    container; the logical coordinate under [p] is the same before and
    after. *)
Theorem zoom_anchor_before_clamp :
  forall (rect : DOMRect.t) (t : Transform.t) (e : WheelEvent.t)
         (lastTouchDistance currentDistance : Q) (t0 t1 : Touch.t),
    0 < Transform.scale t ->
    let w := wheelRaw rect t e in
    let mouseX := WheelEvent.clientX e - DOMRect.left rect in
    let mouseY := WheelEvent.clientY e - DOMRect.top rect in
    let p := pinchRaw rect t lastTouchDistance currentDistance t0 t1 in
    let centerX := (Touch.clientX t0 + Touch.clientX t1) / 2 - DOMRect.left rect in
    let centerY := (Touch.clientY t0 + Touch.clientY t1) / 2 - DOMRect.top rect in
    (Transform.x w = mouseX - (mouseX - Transform.x t) * (Transform.scale w / Transform.scale t) /\
     Transform.y w = mouseY - (mouseY - Transform.y t) * (Transform.scale w / Transform.scale t) /\
     toLogical (Transform.scale w) (Transform.x w) mouseX
       == toLogical (Transform.scale t) (Transform.x t) mouseX /\
     toLogical (Transform.scale w) (Transform.y w) mouseY
       == toLogical (Transform.scale t) (Transform.y t) mouseY) /\
    (Transform.x p = centerX - (centerX - Transform.x t) * (Transform.scale p / Transform.scale t) /\
     Transform.y p = centerY - (centerY - Transform.y t) * (Transform.scale p / Transform.scale t) /\
     toLogical (Transform.scale p) (Transform.x p) centerX
       == toLogical (Transform.scale t) (Transform.x t) centerX /\
     toLogical (Transform.scale p) (Transform.y p) centerY
       == toLogical (Transform.scale t) (Transform.y t) centerY).
Proof.
  intros rect t e d c t0 t1 Hs w mouseX mouseY p centerX centerY.
  assert (Hw : 0 < Transform.scale w).
  { pose proof (wheelRaw_scale rect t e) as [H _]. fold w in H. lra. }
  assert (Hp : 0 < Transform.scale p).
  { pose proof (pinchRaw_scale rect t d c t0 t1) as [H _]. fold p in H. lra. }
  split.
  - split; [reflexivity | split; [reflexivity | ]].
    split; apply (anchor_fixed _ _ _ _ Hs Hw).
  - split; [reflexivity | split; [reflexivity | ]].
    split; apply (anchor_fixed _ _ _ _ Hs Hp).
Qed.

Lemma zoom_anchor_before_clamp_witness :
  let rect := DOMRect.mk 10 20 800 600 in
  let t := Transform.mk 5 7 1 in
  let e := WheelEvent.mk 410 320 (-1) in
  0 < Transform.scale t /\
  toLogical (Transform.scale (wheelRaw rect t e)) (Transform.x (wheelRaw rect t e)) 400
    == toLogical 1 5 400.
Proof.
  split; [reflexivity | ].
  apply (zoom_anchor_before_clamp (DOMRect.mk 10 20 800 600) (Transform.mk 5 7 1)
           (WheelEvent.mk 410 320 (-1)) 100 120 (Touch.mk 0 0) (Touch.mk 30 40)).
  reflexivity.
Defined.

(** ** Scale bounds *)


Lemma constrained_scale (rect : option DOMRect.t) (raw : Transform.t) :
  Transform.scale (constrained rect raw) = Transform.scale raw.
Proof. reflexivity. Qed.

Lemma centerMap_scale_ge (rect : option DOMRect.t) (st : MapState.t) :
  0.6 <= scaleOf st -> 0.6 <= scaleOf (centerMap rect st).
Proof.
  intros H. destruct rect as [r | ]; [ | exact H].
  unfold scaleOf. cbn. apply fitScale_ge.
Qed.

Lemma zoomInClick_scale (rect : option DOMRect.t) (st : MapState.t) :
  0.6 <= scaleOf st ->
  0.6 <= scaleOf (zoomInClick rect st) <= 3.
Proof.
  intros H. unfold scaleOf in *. cbn. split.
  - apply Math_min_ge; lra.
  - apply Math_min_glb.
Qed.

Lemma zoomOutClick_scale (rect : option DOMRect.t) (st : MapState.t) :
  0.6 <= scaleOf st -> 0.6 <= scaleOf (zoomOutClick rect st).
Proof.
  intros H. destruct rect as [r | ]; [ | exact H].
  unfold scaleOf in *. cbn.
  pose proof (absoluteMinZoom_ge r) as Hm.
  pose proof (Math_max_lub (Transform.scale (MapState.transform st) * 0.8)
                (absoluteMinZoom r)) as [_ Hl].
  lra.
Qed.

Lemma handleClusterClick_scale (rect : option DOMRect.t) (c : Cluster.t) (st : MapState.t) :
  0.6 <= scaleOf st ->
  0.6 <= scaleOf (handleClusterClick rect c st) /\
  (scaleOf st <= 3 -> scaleOf (handleClusterClick rect c st) <= 3).
Proof.
  intros H. unfold handleClusterClick.
  destruct (Nat.eqb _ 1); [tauto | ].
  destruct rect as [r | ]; [ | tauto].
  unfold scaleOf in *. cbn. split.
  - apply Math_min_ge; lra.
  - intros _. apply Math_min_glb.
Qed.

Lemma handleWheel_scale (rect : option DOMRect.t) (e : WheelEvent.t) (st : MapState.t) :
  0.6 <= scaleOf st ->
  0.6 <= scaleOf (handleWheel rect e st) /\
  (scaleOf st <= 3 -> scaleOf (handleWheel rect e st) <= 3).
Proof.
  intros H. destruct rect as [r | ]; [ | cbn; tauto].
  unfold scaleOf, handleWheel. cbn [setTransform MapState.transform].
  rewrite constrained_scale.
  pose proof (wheelRaw_scale r (MapState.transform st) e). tauto.
Qed.

(** The wheel handler respects the viewport's minimum zoom whenever that
    minimum does not itself exceed the ceiling. *)
Lemma handleWheel_scale_min (r : DOMRect.t) (e : WheelEvent.t) (st : MapState.t) :
  absoluteMinZoom r <= 3 ->
  absoluteMinZoom r <= scaleOf (handleWheel (Some r) e st).
Proof.
  intros H. unfold scaleOf, handleWheel, wheelRaw. cbn.
  apply Math_min_ge; [apply Math_max_lub | exact H].
Qed.

Section ScaleInvariant.

Variable Math_sqrt : Q -> Q.

Lemma handleTouchStart_scale (e : TouchEvent.t) (st : MapState.t) :
  scaleOf (handleTouchStart Math_sqrt e st) = scaleOf st.
Proof.
  unfold handleTouchStart.
  destruct (TouchEvent.touches e) as [ | t0 [ | t1 [ | t2 l]]]; try reflexivity.
  destruct (TouchEvent.onMarker e); reflexivity.
Qed.

Lemma touchPinch_scale (rect : option DOMRect.t) (t0 t1 : Touch.t) (d : Q)
  (st : MapState.t) :
  0.6 <= scaleOf st ->
  0.6 <= scaleOf (touchPinch Math_sqrt rect t0 t1 d st) /\
  (scaleOf st <= 3 -> scaleOf (touchPinch Math_sqrt rect t0 t1 d st) <= 3).
Proof.
  intros H. unfold touchPinch. destruct rect as [r | ]; [ | tauto].
  cbn [getTouchDistance].
  destruct (negb (truthy _)); [tauto | ].
  unfold scaleOf. cbn [setLastTouchDistance setTransform MapState.transform].
  rewrite constrained_scale.
  match goal with
  | |- context [pinchRaw ?r ?t ?a ?b ?u ?v] =>
      pose proof (pinchRaw_scale r t a b u v)
  end.
  tauto.
Qed.

Lemma handleTouchMove_scale (rect : option DOMRect.t) (e : TouchEvent.t) (st : MapState.t) :
  0.6 <= scaleOf st ->
  0.6 <= scaleOf (handleTouchMove Math_sqrt rect e st) /\
  (scaleOf st <= 3 -> scaleOf (handleTouchMove Math_sqrt rect e st) <= 3).
Proof.
  intros H. unfold handleTouchMove.
  destruct (TouchEvent.touches e) as [ | t0 [ | t1 [ | t2 l]]]; try tauto.
  - destruct (MapState.isDragging st); [ | tauto].
    unfold scaleOf, touchDrag. cbn. unfold scaleOf in H. tauto.
  - destruct (MapState.isDragging st);
      (destruct (MapState.lastTouchDistance st) as [d | ]; [ | tauto]);
      (destruct (truthy d); [apply touchPinch_scale; exact H | tauto]).
Qed.


(** C6, as the code has it.  From a scale in [[0.6, 3]], every operation
    leaves a scale of at least 0.6; panning, wheel zoom, pinch zoom, the
    zoom-in button and cluster zoom leave a scale of at most 3, and the
    wheel one of at least [absoluteMinZoom] when that is at most 3; centring
    and reset store [max(0.6, 0.95 * min(w/2183, h/1301))] and the
    zoom-out button stores [max(0.8 * scale, absoluteMinZoom)], neither
    capped at 3. *)
Theorem step_scale_bounds :
  forall (rect : option DOMRect.t) (ev : Event) (st : MapState.t),
    0.6 <= scaleOf st <= 3 ->
    0.6 <= scaleOf (step Math_sqrt rect ev st) /\
    scale_after rect ev (scaleOf st) (scaleOf (step Math_sqrt rect ev st)).
Proof.
  intros rect ev st [Hlo Hhi].
  destruct ev; cbn [step scale_after].
  - split; [apply centerMap_scale_ge; exact Hlo | ].
    destruct rect as [r | ]; [ | reflexivity].
    unfold scaleOf. cbn. apply fitScale_eq.
  - unfold handleMouseDown. destruct (MouseEvent.onMarker e), rect; cbn; tauto.
  - unfold scaleOf in *. rewrite handleMouseMove_scale. destruct rect; tauto.
  - destruct rect; cbn; tauto.
  - pose proof (handleWheel_scale rect e st Hlo) as Hw.
    destruct rect as [r | ]; [ | tauto].
    pose proof (handleWheel_scale_min r e st). tauto.
  - rewrite handleTouchStart_scale. destruct rect; tauto.
  - pose proof (handleTouchMove_scale rect e st Hlo). destruct rect; tauto.
  - destruct rect; cbn; tauto.
  - pose proof (handleClusterClick_scale rect c st Hlo). destruct rect; tauto.
  - pose proof (zoomInClick_scale rect st Hlo). destruct rect; tauto.
  - split; [apply zoomOutClick_scale; exact Hlo | ].
    destruct rect as [r | ]; reflexivity.
  - split; [apply (centerMap_scale_ge rect st); exact Hlo | ].
    destruct rect as [r | ]; [ | reflexivity].
    unfold scaleOf. cbn. apply fitScale_eq.
Qed.

(** The lower bound alone is an invariant of the controller. *)
Lemma step_scale_ge (rect : option DOMRect.t) (ev : Event) (st : MapState.t) :
  0.6 <= scaleOf st -> 0.6 <= scaleOf (step Math_sqrt rect ev st).
Proof.
  intros Hlo. destruct ev; cbn [step].
  - apply centerMap_scale_ge; exact Hlo.
  - unfold handleMouseDown. destruct (MouseEvent.onMarker e); exact Hlo.
  - unfold scaleOf in *. rewrite handleMouseMove_scale. exact Hlo.
  - exact Hlo.
  - apply handleWheel_scale; exact Hlo.
  - rewrite handleTouchStart_scale. exact Hlo.
  - apply handleTouchMove_scale; exact Hlo.
  - exact Hlo.
  - apply handleClusterClick_scale; exact Hlo.
  - apply zoomInClick_scale; exact Hlo.
  - apply zoomOutClick_scale; exact Hlo.
  - apply (centerMap_scale_ge rect st); exact Hlo.
Qed.

Lemma run_scale_ge (evs : list (option DOMRect.t * Event)) :
  forall st, 0.6 <= scaleOf st -> 0.6 <= scaleOf (run Math_sqrt evs st).
Proof.
  induction evs as [ | [rect ev] rest IH]; intros st H; cbn [run].
  - exact H.
  - apply IH, step_scale_ge, H.
Qed.

Lemma reachable_scale_ge (st : MapState.t) :
  reachable Math_sqrt st -> 0.6 <= scaleOf st.
Proof.
  intros [evs ->]. apply run_scale_ge. unfold scaleOf. cbn. lra.
Qed.

End ScaleInvariant.

Lemma step_scale_bounds_witness :
  0.6 <= scaleOf initialState <= 3 /\
  0.6 <= scaleOf (step isqrtQ (Some (DOMRect.mk 0 0 800 600)) ZoomIn initialState).
Proof.
  split; [split; discriminate | ].
  apply (step_scale_bounds isqrtQ (Some (DOMRect.mk 0 0 800 600)) ZoomIn initialState).
  split; discriminate.
Defined.

(** On a 7680 x 4320 viewport the mount-time centring stores a scale above
    the ceiling of 3. *)
Lemma centerMap_scale_above_max :
  ~ (Transform.scale
       (MapState.transform (centerMap (Some (DOMRect.mk 0 0 7680 4320)) initialState))
     <= 3).
Proof. vm_compute. intros H. apply H. reflexivity. Qed.

(** So does the zoom-out button, from a scale within bounds. *)
Lemma zoomOutClick_scale_above_max :
  ~ (Transform.scale
       (MapState.transform
          (zoomOutClick (Some (DOMRect.mk 0 0 7680 4800)) initialState))
     <= 3).
Proof. vm_compute. intros H. apply H. reflexivity. Qed.

(** The pinch handler floors the scale at the literal 0.6, below the
    viewport's [absoluteMinZoom] on a 1920 x 1200 viewport. *)
Example pinch_below_absoluteMinZoom :
  let rect := DOMRect.mk 0 0 1920 1200 in
  let st := MapState.mk (Transform.mk 0 0 1) false (Point.mk 0 0) (Some 100) in
  let e := TouchEvent.mk [Touch.mk 0 0; Touch.mk 30 40] false in
  scaleOf (handleTouchMove isqrtQ (Some rect) e st) < absoluteMinZoom rect.
Proof. vm_compute. reflexivity. Qed.

(** ** Unmeasured and empty viewports *)


Lemma step_unmeasured (Math_sqrt : Q -> Q) (ev : Event) (st : MapState.t) :
  needsRect ev = true -> step Math_sqrt None ev st = st.
Proof.
  destruct ev; cbn [needsRect step]; try discriminate; intros H; try reflexivity.
  - unfold handleTouchMove.
    destruct (TouchEvent.touches e) as [ | t0 [ | t1 [ | t2 l]]]; try discriminate.
    destruct (MapState.isDragging st);
      (destruct (MapState.lastTouchDistance st) as [d | ]; [ | reflexivity]);
      destruct (truthy d); reflexivity.
  - unfold handleClusterClick. destruct (Nat.eqb _ 1); reflexivity.
Qed.

(** A pinch whose recorded distance is zero is ignored: the quotient
    [currentDistance / lastTouchDistance] is never formed with a zero
    divisor. *)
Lemma pinch_zero_distance (Math_sqrt : Q -> Q) (rect : option DOMRect.t)
  (t0 t1 : Touch.t) (onMarker : bool) (st : MapState.t) (d : Q) :
  MapState.lastTouchDistance st = Some d -> d == 0 ->
  handleTouchMove Math_sqrt rect (TouchEvent.mk [t0; t1] onMarker) st = st.
Proof.
  intros Hd Hz. unfold handleTouchMove. cbn [TouchEvent.touches]. rewrite Hd.
  unfold truthy. apply Qeq_bool_iff in Hz. rewrite Hz.
  destruct (MapState.isDragging st); reflexivity.
Qed.

(** C8, as the code has it.  While the container has no measurement,
    centring, wheel zoom, pinch zoom, cluster zoom, the zoom-out button and
    reset leave the whole state unchanged, and [constrainToBounds] returns
    its arguments, so that panning and the zoom-in button proceed
    unclamped.  In every reachable state the scale, which is the only
    divisor that is not a constant or a checked touch distance, is at
    least 0.6. *)
Theorem unmeasured_viewport_noop :
  forall (Math_sqrt : Q -> Q) (ev : Event) (st : MapState.t),
    reachable Math_sqrt st ->
    (needsRect ev = true -> step Math_sqrt None ev st = st) /\
    (forall x y scale, constrainToBounds None x y scale = Point.mk x y) /\
    0.6 <= scaleOf st /\
    0.6 <= scaleOf (step Math_sqrt None ev st).
Proof.
  intros Math_sqrt ev st Hr.
  pose proof (reachable_scale_ge Math_sqrt st Hr) as Hs.
  repeat split.
  - apply step_unmeasured.
  - exact Hs.
  - apply step_scale_ge, Hs.
Qed.

Lemma unmeasured_viewport_noop_witness :
  reachable isqrtQ initialState /\
  step isqrtQ None (Wheel (WheelEvent.mk 10 10 1)) initialState = initialState.
Proof.
  assert (Hr : reachable isqrtQ initialState) by (exists []; reflexivity).
  split; [exact Hr | ].
  apply (unmeasured_viewport_noop isqrtQ (Wheel (WheelEvent.mk 10 10 1)) initialState Hr).
  reflexivity.
Defined.

(** A measured container of width 0 and height 0 is not treated as
    unmeasured: the mount-time centring stores scale 0.6 over the initial
    scale 1. *)
Lemma centerMap_zero_viewport_changes :
  let st := centerMap (Some (DOMRect.mk 0 0 0 0)) initialState in
  ~ Transform.scale (MapState.transform st)
    == Transform.scale (MapState.transform initialState).
Proof. vm_compute. discriminate. Qed.

(** Nor does an unmeasured container stop a drag or the zoom-in button. *)
Example zoomIn_unmeasured_changes :
  Transform.scale (MapState.transform (zoomInClick None initialState)) == 1.2.
Proof. vm_compute. reflexivity. Qed.


(** * Properties of the marker placement *)

Lemma safeMagnitude_margin : 0 < safeMagnitude /\ safeMagnitude * 27 < overflowThreshold.
Proof. split; vm_compute; reflexivity. Qed.

Lemma js_finite_small (r : Q) :
  - overflowThreshold < r -> r < overflowThreshold -> js_finite r = Finite r.
Proof.
  intros Hlo Hhi. unfold js_finite.
  destruct (Qlt_le_dec r overflowThreshold); [ | lra].
  destruct (Qlt_le_dec (- overflowThreshold) r); [reflexivity | lra].
Qed.

(** Scaling a coordinate of safe magnitude by a canvas dimension of at
    most 2700 does not overflow. *)
Lemma denormalize_finite (v size : Q) :
  - safeMagnitude <= v <= safeMagnitude -> 0 <= size <= 2700 ->
  js_mul (js_div (Finite v) (Finite 100)) (Finite size) = Finite (v / 100 * size).
Proof.
  intros Hv Hsize. destruct safeMagnitude_margin as [Hs Hm].
  assert (Ed : v / 100 == v * (1 # 100)) by field.
  assert (Hb1 : - overflowThreshold < v / 100 /\ v / 100 < overflowThreshold).
  { rewrite Ed. revert Hv Hs Hm. generalize safeMagnitude, overflowThreshold.
    intros S T Hv Hs Hm. split; lra. }
  assert (Hb2 : - overflowThreshold < v / 100 * size /\
                v / 100 * size < overflowThreshold).
  { rewrite Ed. revert Hv Hs Hm. generalize safeMagnitude, overflowThreshold.
    intros S T Hv Hs Hm.
    assert (H1 : v * size <= S * 2700) by nra.
    assert (H2 : - (S * 2700) <= v * size) by nra.
    split; nra. }
  cbn [js_div]. change (Qeq_bool 100 0) with false. cbv iota.
  rewrite (js_finite_small _ (proj1 Hb1) (proj2 Hb1)). cbn [js_mul].
  apply js_finite_small; apply Hb2.
Qed.

(** C9, as the code has it.  A project without a location, or whose
    [location.x] is not a number, is placed at the canvas centre
    [(2638/2, 1822/2)].  A project whose stored coordinates are finite
    numbers [x] and [y] of magnitude at most [10^300], inside [[0, 100]] or
    not, is placed at [(x/100 * 2638, y/100 * 1822)], which is finite, and
    lies on the canvas when [x] and [y] are within [[0, 100]]. *)
Theorem markerPosition_cases :
  forall (project : Project.t),
    (Project.location project = None \/
     (exists l, Project.location project = Some l /\ Location.x l = None) ->
     markerPosition project = canvasCenter) /\
    (forall l x y,
        Project.location project = Some l ->
        Location.x l = Some (Finite x) -> Location.y l = Some (Finite y) ->
        - safeMagnitude <= x <= safeMagnitude ->
        - safeMagnitude <= y <= safeMagnitude ->
        markerPosition project = (Finite (x / 100 * 2638), Finite (y / 100 * 1822)) /\
        (0 <= x <= 100 -> 0 <= y <= 100 ->
         0 <= x / 100 * 2638 <= 2638 /\ 0 <= y / 100 * 1822 <= 1822)).
Proof.
  intros project. split.
  - intros [H | [l [H Hx]]]; unfold markerPosition; rewrite H; [reflexivity | ].
    rewrite Hx. reflexivity.
  - intros l x y H Hx Hy Hxs Hys. split.
    + unfold markerPosition. rewrite H, Hx, Hy. cbn [toNumber].
      rewrite (denormalize_finite x 2638 Hxs), (denormalize_finite y 1822 Hys);
        [reflexivity | split; discriminate | split; discriminate].
    + intros Hxr Hyr.
      assert (Ex : x / 100 * 2638 == x * (2638 # 100)) by field.
      assert (Ey : y / 100 * 1822 == y * (1822 # 100)) by field.
      rewrite Ex, Ey. lra.
Qed.

Lemma markerPosition_cases_witness :
  let project := Project.mk "P-001" (Some (Location.mk (Some (Finite 50)) (Some (Finite 25)))) in
  markerPosition project = (Finite (50 / 100 * 2638), Finite (25 / 100 * 1822)) /\
  markerPosition (Project.mk "P-002" None) = canvasCenter.
Proof.
  split.
  - assert (H50 : - safeMagnitude <= 50 <= safeMagnitude)
      by (split; vm_compute; discriminate).
    assert (H25 : - safeMagnitude <= 25 <= safeMagnitude)
      by (split; vm_compute; discriminate).
    exact (proj1 (proj2 (markerPosition_cases
             (Project.mk "P-001" (Some (Location.mk (Some (Finite 50)) (Some (Finite 25))))))
             (Location.mk (Some (Finite 50)) (Some (Finite 25))) 50 25
             eq_refl eq_refl eq_refl H50 H25)).
  - exact (proj1 (markerPosition_cases (Project.mk "P-002" None)) (or_introl eq_refl)).
Defined.

(** A stored [x] of 150 is malformed, yet the marker is placed at
    [x = 3957], off the canvas, not at the centre; a stored [NaN], or a
    missing [y] next to a numeric [x], gives a [NaN] coordinate. *)
Lemma markerPosition_malformed_not_center :
  let p150 := Project.mk "P-150" (Some (Location.mk (Some (Finite 150)) (Some (Finite 50)))) in
  let pNaN := Project.mk "P-NaN" (Some (Location.mk (Some NaN) (Some (Finite 50)))) in
  let pNoY := Project.mk "P-noY" (Some (Location.mk (Some (Finite 50)) None)) in
  (wellFormed p150 = false /\
   fst (markerPosition p150) = Finite (150 / 100 * 2638) /\
   ~ 150 / 100 * 2638 == 2638 / 2) /\
  (wellFormed pNaN = false /\ isFinite (fst (markerPosition pNaN)) = false) /\
  (wellFormed pNoY = false /\ isFinite (snd (markerPosition pNoY)) = false).
Proof.
  cbv zeta. repeat split; try (vm_compute; reflexivity).
  vm_compute. discriminate.
Qed.

(** Beyond the safe magnitude the product overflows: a stored [x] of
    [10^307] gives an infinite coordinate. *)
Example markerPosition_overflow :
  let p := Project.mk "P-big"
             (Some (Location.mk (Some (Finite (inject_Z (10 ^ 307)))) (Some (Finite 50)))) in
  fst (markerPosition p) = PosInfinity.
Proof. vm_compute. reflexivity. Qed.


(** * Properties of the clustering engine *)

Module ClusteringFacts.

Import Clustering.

(** ** The nearest cluster *)

(** The candidate returned by [nearest] is the incoming one or names a
    cluster of the scanned list, with the squared distance to its centroid. *)
Lemma nearest_spec (p : Q * Q) (clusters : list Cluster.t) :
  forall i best j d,
    nearest p clusters i best = Some (j, d) ->
    best = Some (j, d) \/
    exists c, (i <= j)%nat /\ nth_error clusters (j - i) = Some c /\
              d = dist2 p (Cluster.x c, Cluster.y c).
Proof.
  induction clusters as [ | c rest IH]; intros i best j d H; cbn [nearest] in H.
  - left. exact H.
  - apply IH in H. destruct H as [H | [c' [Hle [Hn Hd]]]].
    + assert (Hhere : Some (j, d) = Some (i, dist2 p (Cluster.x c, Cluster.y c)) ->
                      exists c0, (i <= j)%nat /\ nth_error (c :: rest) (j - i) = Some c0 /\
                                 d = dist2 p (Cluster.x c0, Cluster.y c0)).
      { intros E. injection E as -> ->. exists c.
        rewrite Nat.sub_diag. repeat split. lia. }
      destruct best as [[j0 d0] | ].
      * destruct (Qlt_le_dec _ d0).
        -- right. apply Hhere. symmetry. exact H.
        -- left. exact H.
      * right. apply Hhere. symmetry. exact H.
    + right. exists c'. repeat split; [lia | | exact Hd].
      replace (j - i)%nat with (S (j - S i)) by lia. exact Hn.
Qed.

Lemma nearest_from_scratch (p : Q * Q) (clusters : list Cluster.t) (j : nat) (d : Q) :
  nearest p clusters 0%nat None = Some (j, d) ->
  exists c, nth_error clusters j = Some c /\ d = dist2 p (Cluster.x c, Cluster.y c).
Proof.
  intros H. apply nearest_spec in H. destruct H as [H | [c [_ [Hn Hd]]]].
  - discriminate.
  - rewrite Nat.sub_0_r in Hn. exists c. split; assumption.
Qed.

(** ** Squared distances and Euclidean distances *)

Lemma dist2_nonneg (a b : Q * Q) : 0 <= dist2 a b.
Proof.
  unfold dist2.
  generalize (fst a - fst b) (snd a - snd b). intros u v. Lqa.nra.
Qed.

(** [withinRadius] decides whether the Euclidean distance [sqrt d2] is at
    most the radius. *)
Lemma withinRadius_euclid (d2 r : Q) :
  0 <= d2 ->
  withinRadius d2 r = true <-> (sqrt (Q2R d2) <= Q2R r)%R.
Proof.
  intros Hd. unfold withinRadius. rewrite andb_true_iff, !Qle_bool_iff.
  apply Qle_Rle in Hd. rewrite RMicromega.Q2R_0 in Hd.
  split.
  - intros [Hr Hle]. apply Qle_Rle in Hr, Hle.
    rewrite RMicromega.Q2R_0 in Hr. rewrite Q2R_mult in Hle.
    rewrite <- (sqrt_square (Q2R r) Hr). apply sqrt_le_1_alt. exact Hle.
  - intros H. pose proof (sqrt_pos (Q2R d2)) as Hs.
    assert (Hr : (0 <= Q2R r)%R) by Lra.lra.
    split.
    + apply Rle_Qle. rewrite RMicromega.Q2R_0. exact Hr.
    + apply Rle_Qle. rewrite Q2R_mult.
      rewrite <- (sqrt_sqrt (Q2R d2) Hd).
      apply Rmult_le_compat; Lra.lra.
Qed.

(** A cluster is strictly nearer in Euclidean distance exactly when it is
    strictly nearer in squared distance. *)
Lemma nearer_euclid (d d' : Q) :
  0 <= d -> 0 <= d' ->
  d < d' <-> (sqrt (Q2R d) < sqrt (Q2R d'))%R.
Proof.
  intros Hd Hd'. apply Qle_Rle in Hd, Hd'. rewrite RMicromega.Q2R_0 in Hd, Hd'.
  split.
  - intros H. apply Qlt_Rlt in H. apply sqrt_lt_1_alt. split; assumption.
  - intros H. apply Rlt_Qlt. apply sqrt_lt_0_alt. exact H.
Qed.

(** ** Membership is a partition *)

Lemma members_app (a b : list Cluster.t) : members (a ++ b) = members a ++ members b.
Proof. unfold members. rewrite map_app, concat_app. reflexivity. Qed.

Lemma updateAt_members (project : Project.t) (clusters : list Cluster.t) :
  forall i c, nth_error clusters i = Some c ->
    Permutation (members (updateAt i (appendMember project) clusters))
                (project :: members clusters).
Proof.
  induction clusters as [ | c0 rest IH]; intros i c H.
  - destruct i; discriminate.
  - destruct i as [ | i]; cbn [updateAt].
    + unfold members. cbn [map List.concat appendMember Cluster.projects].
      rewrite <- app_assoc. cbn [app].
      apply Permutation_sym, Permutation_middle.
    + cbn [nth_error] in H. specialize (IH i c H).
      unfold members in *. cbn [map List.concat].
      rewrite IH. apply Permutation_sym, Permutation_middle.
Qed.

Lemma updateAt_nonempty (project : Project.t) (clusters : list Cluster.t) :
  forall i, Forall (fun c => Cluster.projects c <> []) clusters ->
    Forall (fun c => Cluster.projects c <> []) (updateAt i (appendMember project) clusters).
Proof.
  induction clusters as [ | c0 rest IH]; intros i H; [cbn; constructor | ].
  inversion H as [ | ? ? Hc Hrest]; subst.
  destruct i as [ | i]; cbn [updateAt]; constructor; auto.
  cbn. destruct (Cluster.projects c0); discriminate.
Qed.

Lemma addPoint_members (r : Q) (clusters : list Cluster.t) (project : Project.t) :
  Permutation (members (addPoint r clusters project)) (project :: members clusters).
Proof.
  assert (Hnew : Permutation
                   (members (clusters ++ [newCluster (List.length clusters) project]))
                   (project :: members clusters)).
  { rewrite members_app. unfold members at 2. cbn. 
    apply Permutation_sym, Permutation_cons_append. }
  unfold addPoint.
  destruct (nearest _ clusters 0%nat None) as [[i d] | ] eqn:Hn; [ | exact Hnew].
  destruct (withinRadius d r); [ | exact Hnew].
  apply nearest_from_scratch in Hn. destruct Hn as [c [Hc _]].
  apply (updateAt_members project clusters i c Hc).
Qed.

Lemma addPoint_nonempty (r : Q) (clusters : list Cluster.t) (project : Project.t) :
  Forall (fun c => Cluster.projects c <> []) clusters ->
  Forall (fun c => Cluster.projects c <> []) (addPoint r clusters project).
Proof.
  intros H.
  assert (Hnew : Forall (fun c => Cluster.projects c <> [])
                   (clusters ++ [newCluster (List.length clusters) project])).
  { apply Forall_app. split; [exact H | ]. constructor; [discriminate | constructor]. }
  unfold addPoint.
  destruct (nearest _ clusters 0%nat None) as [[i d] | ]; [ | exact Hnew].
  destruct (withinRadius d r); [ | exact Hnew].
  apply updateAt_nonempty, H.
Qed.

Lemma fold_addPoint_partition (r : Q) (points : list Project.t) :
  forall acc,
    Forall (fun c => Cluster.projects c <> []) acc ->
    Permutation (members (fold_left (addPoint r) points acc)) (members acc ++ points) /\
    Forall (fun c => Cluster.projects c <> []) (fold_left (addPoint r) points acc).
Proof.
  induction points as [ | p rest IH]; intros acc Hacc; cbn [fold_left].
  - rewrite app_nil_r. split; [reflexivity | exact Hacc].
  - destruct (IH (addPoint r acc p) (addPoint_nonempty r acc p Hacc)) as [Hperm Hne].
    split; [ | exact Hne].
    rewrite Hperm, addPoint_members. apply Permutation_middle.
Qed.

(** C1. For every list of points and every scale, [cluster] either
    rejects a scale that is not positive, or returns clusters whose member
    lists, put together, are a rearrangement of the input (each input point
    in exactly one cluster, none added, none lost), every cluster having at
    least one member. *)
Theorem cluster_partition :
  forall (baseRadius : Q) (points : list Project.t) (scale : Q),
    match cluster baseRadius points scale with
    | inr clusters =>
        0 < scale /\
        Permutation (members clusters) points /\
        Forall (fun c => Cluster.projects c <> []) clusters
    | inl InvalidArgument => scale <= 0
    end.
Proof.
  intros baseRadius points scale. unfold cluster.
  destruct (Qlt_le_dec 0 scale) as [Hpos | Hneg]; [ | exact Hneg].
  split; [exact Hpos | ].
  apply (fold_addPoint_partition (radius baseRadius scale) points []). constructor.
Qed.

(** ** Cluster count and scale *)

Lemma dist2_sym (a b : Q * Q) : dist2 a b == dist2 b a.
Proof. unfold dist2. ring. Qed.

Lemma far_sym (r : Q) (a b : Project.t) : far r a b -> far r b a.
Proof. unfold far. intros H. rewrite dist2_sym. exact H. Qed.

Lemma withinRadius_far (d r : Q) : r * r < d -> withinRadius d r = false.
Proof.
  intros H. unfold withinRadius.
  destruct (Qle_bool d (r * r)) eqn:E.
  - apply Qle_bool_iff in E. lra.
  - apply andb_false_r.
Qed.

Lemma singletons_nth (clusters : list Cluster.t) (points : list Project.t) :
  singletons clusters points ->
  forall j c, nth_error clusters j = Some c ->
    exists p, In p points /\ (Cluster.x c, Cluster.y c) = denormalize p.
Proof.
  induction 1 as [ | c0 p0 cs ps [_ Hc] _ IH]; intros j c Hj.
  - destruct j; discriminate.
  - destruct j as [ | j]; cbn [nth_error] in Hj.
    + injection Hj as <-. exists p0. split; [left; reflexivity | exact Hc].
    + destruct (IH j c Hj) as [p [Hin Hp]]. exists p. split; [right | ]; assumption.
Qed.

(** A point farther than the radius from every point seen so far starts
    a cluster of its own, as long as every cluster so far is a singleton. *)
Lemma addPoint_far (r : Q) (clusters : list Cluster.t) (seen : list Project.t)
  (q : Project.t) :
  singletons clusters seen ->
  Forall (fun a => far r a q) seen ->
  addPoint r clusters q = clusters ++ [newCluster (List.length clusters) q].
Proof.
  intros Hs Hfar. unfold addPoint.
  destruct (nearest _ clusters 0%nat None) as [[j d] | ] eqn:Hn; [ | reflexivity].
  apply nearest_from_scratch in Hn. destruct Hn as [c [Hc Hd]].
  destruct (singletons_nth _ _ Hs j c Hc) as [p [Hin Hp]].
  rewrite Forall_forall in Hfar. apply Hfar, far_sym in Hin.
  unfold far in Hin. rewrite <- Hp, <- Hd in Hin.
  rewrite (withinRadius_far _ _ Hin). reflexivity.
Qed.

Lemma fold_addPoint_dissolved (r : Q) (points : list Project.t) :
  forall clusters seen,
    singletons clusters seen ->
    Forall (fun a => Forall (far r a) points) seen ->
    ForallOrdPairs (far r) points ->
    singletons (fold_left (addPoint r) points clusters) (seen ++ points).
Proof.
  induction points as [ | q rest IH]; intros clusters seen Hs Hseen Hpairs;
    cbn [fold_left].
  - rewrite app_nil_r. exact Hs.
  - inversion Hpairs as [ | ? ? Hq Hrest]; subst.
    rewrite (addPoint_far r clusters seen q Hs).
    + replace (seen ++ q :: rest) with ((seen ++ [q]) ++ rest)
        by (rewrite <- app_assoc; reflexivity).
      apply IH.
      * apply Forall2_app; [exact Hs | ].
        constructor; [ | constructor].
        split; [reflexivity | ]. cbn. destruct (denormalize q); reflexivity.
      * apply Forall_app. split.
        -- eapply Forall_impl; [ | exact Hseen].
           intros a Ha. inversion Ha; assumption.
        -- constructor; [exact Hq | constructor].
      * exact Hrest.
    + eapply Forall_impl; [ | exact Hseen].
      intros a Ha. inversion Ha; assumption.
Qed.

Lemma singletons_length (clusters : list Cluster.t) (points : list Project.t) :
  singletons clusters points -> List.length clusters = List.length points.
Proof. induction 1; cbn; congruence. Qed.

(** Singleton correctness: when the radius is below every pairwise
    distance, every point is a cluster of its own. *)
Lemma cluster_dissolved (baseRadius : Q) (points : list Project.t) (scale : Q) :
  0 < scale ->
  ForallOrdPairs (far (radius baseRadius scale)) points ->
  exists clusters, cluster baseRadius points scale = inr clusters /\
                   singletons clusters points.
Proof.
  intros Hpos Hpairs. unfold cluster.
  destruct (Qlt_le_dec 0 scale) as [_ | Hneg]; [ | lra].
  eexists. split; [reflexivity | ].
  apply (fold_addPoint_dissolved _ points [] []); [constructor | constructor | exact Hpairs].
Qed.

Lemma nonempty_clusters_length (clusters : list Cluster.t) :
  Forall (fun c => Cluster.projects c <> []) clusters ->
  (List.length clusters <= List.length (members clusters))%nat.
Proof.
  induction 1 as [ | c cs Hc _ IH]; [cbn; lia | ].
  unfold members in *. cbn [map List.concat List.length]. rewrite length_app.
  destruct (Cluster.projects c); [congruence | cbn; lia].
Qed.

(** There are never more clusters than points. *)
Lemma cluster_count_le (baseRadius : Q) (points : list Project.t) (scale : Q) :
  (count (cluster baseRadius points scale) <= List.length points)%nat.
Proof.
  unfold cluster.
  destruct (Qlt_le_dec 0 scale) as [Hpos | Hneg]; cbn [count]; [ | lia].
  destruct (fold_addPoint_partition (radius baseRadius scale) points [] (Forall_nil _))
    as [Hperm Hne].
  cbn [members map List.concat app] in Hperm.
  rewrite <- (Permutation_length Hperm). apply nonempty_clusters_length, Hne.
Qed.

(** C5, as the model has it.  For a fixed list of points and valid scales
    [s1 <= s2], the cluster count at [s2] is at least the count at [s1]
    whenever the radius at [s2] is below every pairwise distance: the points
    are then all singletons, which is the largest count there is. *)
Theorem cluster_count_monotone_dissolved :
  forall (baseRadius : Q) (points : list Project.t) (s1 s2 : Q),
    0 < s1 -> s1 <= s2 ->
    ForallOrdPairs (far (radius baseRadius s2)) points ->
    (count (cluster baseRadius points s1) <= count (cluster baseRadius points s2))%nat /\
    count (cluster baseRadius points s2) = List.length points.
Proof.
  intros baseRadius points s1 s2 H1 H12 Hpairs.
  assert (H2 : 0 < s2) by lra.
  destruct (cluster_dissolved baseRadius points s2 H2 Hpairs) as [clusters [E Hs]].
  assert (Hn : count (cluster baseRadius points s2) = List.length points).
  { rewrite E. cbn [count]. apply singletons_length, Hs. }
  split; [ | exact Hn].
  rewrite Hn. apply cluster_count_le.
Qed.

Lemma fourPoints_far : ForallOrdPairs (far (radius 80 10)) fourPoints.
Proof.
  unfold fourPoints.
  repeat (apply FOP_cons;
          [repeat (apply Forall_cons; [vm_compute; reflexivity | ]); apply Forall_nil | ]).
  apply FOP_nil.
Defined.

Lemma cluster_count_monotone_dissolved_witness :
  0 < 1 /\ 1 <= 10 /\
  (count (cluster 80 fourPoints 1) <= count (cluster 80 fourPoints 10))%nat.
Proof.
  split; [reflexivity | split; [discriminate | ]].
  apply (cluster_count_monotone_dissolved 80 fourPoints 1 10).
  - reflexivity.
  - discriminate.
  - exact fourPoints_far.
Defined.

(** With base radius 80, [fourPoints] form three clusters at scale 1 and
    only two at scale 1.4: at the smaller radius [A] and [B] no longer
    merge, which leaves [C] next to [A] and [D] next to [B]. *)
Lemma cluster_count_not_monotone :
  1 <= 7 # 5 /\
  count (cluster 80 fourPoints 1) = 3%nat /\
  count (cluster 80 fourPoints (7 # 5)) = 2%nat /\
  ~ (count (cluster 80 fourPoints 1) <= count (cluster 80 fourPoints (7 # 5)))%nat.
Proof.
  split; [discriminate | ].
  assert (E1 : count (cluster 80 fourPoints 1) = 3%nat) by (vm_compute; reflexivity).
  assert (E2 : count (cluster 80 fourPoints (7 # 5)) = 2%nat) by (vm_compute; reflexivity).
  rewrite E1, E2. repeat split. lia.
Qed.

(** The end-to-end scenario at scale 1 and base radius 80: [a] and [b]
    share a cluster placed at the mean of their positions, [c] is alone. *)
Example scenario_scale_1 :
  match cluster 80 scenarioPoints 1 with
  | inr [ab; c] =>
      map Project.id (Cluster.projects ab) = ["a"; "b"]%string /\
      map Project.id (Cluster.projects c) = ["c"]%string /\
      Cluster.x ab == (10 / 100 * 2638 + 10.5 / 100 * 2638) / 2 /\
      Cluster.y ab == (10 / 100 * 1822 + 10.2 / 100 * 1822) / 2
  | _ => False
  end.
Proof. vm_compute. repeat split. Qed.

End ClusteringFacts.

(** * Further properties of the transform controller *)

(** X1. Cluster zoom multiplies the scale by 2.5, capped at 3, and, before
    clamping, puts the cluster centroid at the centre of the viewport: seen
    through the new transform with the tooltip's screen formula, the
    centroid is at [(width/2, height/2)]. *)
Theorem clusterZoom_centres_centroid :
  forall (rect : DOMRect.t) (t : Transform.t) (c : Cluster.t),
    let z := clusterZoomRaw rect t c in
    let screen :=
      ProjectHoverTooltip.screenPosition (Point.mk (Cluster.x c) (Cluster.y c)) z in
    Transform.scale z = Math_min (Transform.scale t * 2.5) 3 /\
    Point.x screen == DOMRect.width rect / 2 /\
    Point.y screen == DOMRect.height rect / 2.
Proof.
  intros rect t c z screen. split; [reflexivity | ].
  unfold screen, z, ProjectHoverTooltip.screenPosition, clusterZoomRaw.
  cbn [Point.x Point.y Transform.x Transform.y Transform.scale].
  unfold mapOffsetX, mapOffsetY. split; ring.
Qed.

(** X2. During a drag the stored transform depends only on the latest
    pointer position: a move after another move gives the state that the
    second move alone gives, for the mouse and for a single touch. *)
Theorem drag_latest_position_only :
  forall (Math_sqrt : Q -> Q) (rect : option DOMRect.t) (st : MapState.t)
         (e1 e2 : MouseEvent.t) (t1 t2 : Touch.t) (m1 m2 : bool),
    handleMouseMove rect e2 (handleMouseMove rect e1 st) = handleMouseMove rect e2 st /\
    handleTouchMove Math_sqrt rect (TouchEvent.mk [t2] m2)
      (handleTouchMove Math_sqrt rect (TouchEvent.mk [t1] m1) st)
    = handleTouchMove Math_sqrt rect (TouchEvent.mk [t2] m2) st.
Proof.
  intros Math_sqrt rect st e1 e2 t1 t2 m1 m2. split.
  - unfold handleMouseMove.
    destruct (MapState.isDragging st) eqn:Hd; cbn [negb]; [ | rewrite Hd; reflexivity].
    cbn [setTransform MapState.isDragging MapState.transform MapState.dragStart
         Transform.scale negb]. rewrite Hd. reflexivity.
  - unfold handleTouchMove. cbn [TouchEvent.touches].
    destruct (MapState.isDragging st) eqn:Hd; [ | rewrite Hd; reflexivity].
    unfold touchDrag.
    cbn [setTransform MapState.isDragging MapState.transform MapState.dragStart
         Transform.scale]. rewrite Hd. reflexivity.
Qed.



Lemma constrained_upper (r : DOMRect.t) (raw : Transform.t) :
  let t := constrained (Some r) raw in
  Transform.x t <= mapOffsetX * Transform.scale t /\
  Transform.y t <= mapOffsetY * Transform.scale t.
Proof.
  cbn zeta. unfold constrained. cbn [Transform.x Transform.y Transform.scale].
  split; apply constrainToBounds_range.
Qed.

Lemma step_edgesOutside (Math_sqrt : Q -> Q) (r : DOMRect.t) (ev : Event) (st : MapState.t) :
  edgesOutside st -> edgesOutside (step Math_sqrt (Some r) ev st).
Proof.
  intros H.
  assert (Hc : forall raw st0, edgesOutside (setTransform st0 (constrained (Some r) raw))).
  { intros raw st0. unfold edgesOutside. cbn [setTransform MapState.transform].
    pose proof (constrained_upper r raw) as [Hx Hy]. cbn zeta in Hx, Hy. split; lra. }
  destruct ev; cbn [step].
  - apply Hc.
  - unfold handleMouseDown. destruct (MouseEvent.onMarker e); exact H.
  - unfold handleMouseMove. destruct (negb _); [exact H | ].
    apply (Hc (Transform.mk _ _ _) st).
  - exact H.
  - apply Hc.
  - unfold handleTouchStart.
    destruct (TouchEvent.touches e) as [ | t0 [ | t1 [ | t2 l]]]; try exact H.
    destruct (TouchEvent.onMarker e); exact H.
  - unfold handleTouchMove.
    destruct (TouchEvent.touches e) as [ | t0 [ | t1 [ | t2 l]]]; try exact H.
    + destruct (MapState.isDragging st); [ | exact H].
      apply (Hc (Transform.mk _ _ _) st).
    + destruct (MapState.isDragging st);
        (destruct (MapState.lastTouchDistance st) as [d | ]; [ | exact H]);
        (destruct (truthy d); [ | exact H]);
        unfold touchPinch; cbn [getTouchDistance];
        (destruct (negb (truthy _)); [exact H | ]);
        unfold edgesOutside; cbn [setLastTouchDistance MapState.transform];
        apply (Hc _ st).
  - exact H.
  - unfold handleClusterClick. destruct (Nat.eqb _ 1); [exact H | apply Hc].
  - apply (Hc (Transform.mk _ _ _) st).
  - apply (Hc (Transform.mk _ _ _) st).
  - apply Hc.
Qed.

(** X5. In every state reached from the initial one by operations that
    all found the container measured, the translation is at most
    [(455 * scale, 521 * scale)]: the left and top edges of the canvas never
    come inside the viewport, however the map is dragged and zoomed. *)
Theorem canvas_edges_stay_outside :
  forall (Math_sqrt : Q -> Q) (evs : list (option DOMRect.t * Event)),
    measured evs ->
    edgesOutside (run Math_sqrt evs initialState).
Proof.
  intros Math_sqrt evs Hm.
  assert (Hinit : edgesOutside initialState).
  { unfold edgesOutside. cbn. split; discriminate. }
  revert Hinit. generalize initialState.
  induction Hm as [ | [rect ev] rest Hr _ IH]; intros st Hst; cbn [run].
  - exact Hst.
  - cbn [fst] in Hr. destruct rect as [r | ]; [ | congruence].
    apply IH, step_edgesOutside, Hst.
Qed.

Lemma canvas_edges_stay_outside_witness :
  let evs := [(Some (DOMRect.mk 0 0 800 600), Mount);
              (Some (DOMRect.mk 0 0 800 600), MouseDown (MouseEvent.mk 10 10 false));
              (Some (DOMRect.mk 0 0 800 600), MouseMove (MouseEvent.mk 900 700 false))] in
  measured evs /\ edgesOutside (run isqrtQ evs initialState).
Proof.
  assert (Hm : measured
                 [(Some (DOMRect.mk 0 0 800 600), Mount);
                  (Some (DOMRect.mk 0 0 800 600), MouseDown (MouseEvent.mk 10 10 false));
                  (Some (DOMRect.mk 0 0 800 600), MouseMove (MouseEvent.mk 900 700 false))]).
  { repeat (apply Forall_cons; [discriminate | ]). apply Forall_nil. }
  split; [exact Hm | ].
  apply (canvas_edges_stay_outside isqrtQ _ Hm).
Defined.

(** Without a measurement the clamp is skipped and a drag can bring the
    left edge inside. *)
Example unmeasured_drag_brings_edge_inside :
  let evs := [(None, MouseDown (MouseEvent.mk 0 0 false));
              (None, MouseMove (MouseEvent.mk 1000 0 false))] in
  ~ edgesOutside (run isqrtQ evs initialState).
Proof. cbv zeta. unfold edgesOutside. vm_compute. intros [H _]. apply H. reflexivity. Qed.

(** X6. With the scale between the viewport's minimum zoom and 3, a wheel
    event with [deltaY > 0] never raises the scale and keeps it at least
    the minimum, and any other wheel event never lowers it and keeps it at
    most 3. *)
Theorem wheel_direction :
  forall (r : DOMRect.t) (e : WheelEvent.t) (st : MapState.t),
    absoluteMinZoom r <= scaleOf st <= 3 ->
    let s' := scaleOf (handleWheel (Some r) e st) in
    (0 < WheelEvent.deltaY e -> absoluteMinZoom r <= s' <= scaleOf st) /\
    (WheelEvent.deltaY e <= 0 -> scaleOf st <= s' <= 3).
Proof.
  intros r e st [Hlo Hhi]. unfold scaleOf in *.
  cbn [handleWheel setTransform MapState.transform constrained Transform.scale wheelRaw].
  pose proof (absoluteMinZoom_ge r) as Hm.
  set (s := Transform.scale (MapState.transform st)) in *.
  set (m := absoluteMinZoom r) in *. clearbody s m.
  split; intros Hd; destruct (Qlt_le_dec 0 (WheelEvent.deltaY e)) as [Hp | Hn]; try lra;
    unfold Math_min, Math_max;
    repeat (destruct (Qlt_le_dec _ _)); lra.
Qed.

Lemma wheel_direction_witness :
  let r := DOMRect.mk 0 0 800 600 in
  absoluteMinZoom r <= scaleOf initialState <= 3 /\
  scaleOf initialState <= scaleOf (handleWheel (Some r) (WheelEvent.mk 5 5 (-1)) initialState).
Proof.
  assert (H : absoluteMinZoom (DOMRect.mk 0 0 800 600) <= scaleOf initialState <= 3)
    by (split; vm_compute; discriminate).
  split; [exact H | ].
  apply (proj2 (wheel_direction (DOMRect.mk 0 0 800 600) (WheelEvent.mk 5 5 (-1))
                  initialState H)).
  vm_compute. discriminate.
Defined.

(** X7. The zoom-in button never lowers a scale between 0 and 3 and leaves
    3 fixed; the zoom-out button never raises a scale that is at least the
    viewport's minimum zoom, and never goes below that minimum. *)
Theorem zoom_buttons_direction :
  forall (rect : option DOMRect.t) (r : DOMRect.t) (st : MapState.t),
    (0 <= scaleOf st <= 3 ->
     scaleOf st <= scaleOf (zoomInClick rect st) <= 3) /\
    (absoluteMinZoom r <= scaleOf st ->
     absoluteMinZoom r <= scaleOf (zoomOutClick (Some r) st) <= scaleOf st).
Proof.
  intros rect r st. unfold scaleOf.
  cbn [zoomInClick zoomOutClick setTransform MapState.transform constrained Transform.scale].
  pose proof (absoluteMinZoom_ge r) as Hm.
  set (s := Transform.scale (MapState.transform st)).
  set (m := absoluteMinZoom r) in *. clearbody s m.
  unfold Math_min, Math_max.
  split; intros H; repeat (destruct (Qlt_le_dec _ _)); lra.
Qed.

Lemma zoom_buttons_direction_witness :
  0 <= scaleOf initialState <= 3 /\
  scaleOf initialState <= scaleOf (zoomInClick None initialState).
Proof.
  assert (H : 0 <= scaleOf initialState <= 3) by (split; vm_compute; discriminate).
  split; [exact H | ].
  apply (proj1 (zoom_buttons_direction None (DOMRect.mk 0 0 800 600) initialState) H).
Defined.

(** * Properties of the hover tooltip *)


(** On a wide window with a container narrower than 320 the tooltip
    overflows the padded container. *)
Example tooltip_overflows_narrow_container :
  match ProjectHoverTooltip.placement (Point.mk 1319 911) (Transform.mk 0 0 1)
          (Some (DOMRect.mk 0 0 300 600)) (Some 1024) with
  | Some p => 300 - 20 < ProjectHoverTooltip.left p + ProjectHoverTooltip.width p
  | None => False
  end.
Proof. vm_compute. reflexivity. Qed.

(** * Properties of the convocatoria colours *)

Module ConvocatoriaColorsFacts.

Import ConvocatoriaColors.

Lemma Map_has_false_get (m : ColorMap) (k : string) :
  Map_has m k = false -> Map_get m k = None.
Proof.
  unfold Map_has, Map_get. induction m as [ | [k0 v0] rest IH]; cbn; [reflexivity | ].
  destruct (String.eqb k0 k); cbn; [discriminate | exact IH].
Qed.

Lemma Map_has_true_get (m : ColorMap) (k : string) :
  Map_has m k = true -> exists i, Map_get m k = Some i /\ In (k, i) m.
Proof.
  unfold Map_has, Map_get. induction m as [ | [k0 v0] rest IH]; cbn; [discriminate | ].
  destruct (String.eqb k0 k) eqn:E; cbn.
  - intros _. apply String.eqb_eq in E. subst. exists v0. split; [reflexivity | now left].
  - intros H. destruct (IH H) as [i [Hi Hin]]. exists i. split; [exact Hi | now right].
Qed.

Lemma Map_get_some_has (m : ColorMap) (k : string) (i : nat) :
  Map_get m k = Some i -> Map_has m k = true.
Proof.
  intros H. destruct (Map_has m k) eqn:E; [reflexivity | ].
  rewrite (Map_has_false_get m k E) in H. discriminate.
Qed.

(** Setting a key that the map does not hold appends an entry. *)
Lemma Map_set_fresh (m : ColorMap) (k : string) (v : nat) :
  Map_has m k = false -> Map_set m k v = m ++ [(k, v)].
Proof.
  unfold Map_has. induction m as [ | [k0 v0] rest IH]; cbn; [reflexivity | ].
  destruct (String.eqb k0 k); cbn; [discriminate | ].
  intros H. rewrite (IH H). reflexivity.
Qed.

Lemma Map_get_app (m m' : ColorMap) (k : string) :
  Map_get (m ++ m') k
  = match Map_get m k with Some i => Some i | None => Map_get m' k end.
Proof.
  unfold Map_get. induction m as [ | [k0 v0] rest IH]; cbn; [reflexivity | ].
  destruct (String.eqb k0 k); cbn; [reflexivity | exact IH].
Qed.

Lemma Map_has_app (m m' : ColorMap) (k : string) :
  Map_has (m ++ m') k = Map_has m k || Map_has m' k.
Proof. unfold Map_has. apply existsb_app. Qed.

(** ** The map only grows *)

Lemma getConvocatoriaColor_extends (convocatoria : option string) (m : ColorMap) :
  exists ext, snd (getConvocatoriaColor convocatoria m) = m ++ ext /\
              Forall (fun e => (snd e < 10)%nat) ext.
Proof.
  assert (Hnil : exists ext, m = m ++ ext /\ Forall (fun e => (snd e < 10)%nat) ext).
  { exists []. rewrite app_nil_r. split; [reflexivity | constructor]. }
  unfold getConvocatoriaColor. destruct convocatoria as [c | ]; [ | exact Hnil].
  destruct (falsy (Some c)); [exact Hnil | ].
  destruct (Map_has m c) eqn:Hh.
  - destruct (Map_get m c); exact Hnil.
  - cbn [snd]. rewrite (Map_set_fresh m c _ Hh). eexists. split; [reflexivity | ].
    constructor; [ | constructor]. cbn [snd].
    apply Nat.mod_upper_bound. discriminate.
Qed.

Lemma registerFrom_extends (sorted : list string) :
  forall index m, exists ext, registerFrom index sorted m = m ++ ext /\
                              Forall (fun e => (snd e < 10)%nat) ext.
Proof.
  induction sorted as [ | c rest IH]; intros index m; cbn [registerFrom].
  - exists []. rewrite app_nil_r. split; [reflexivity | constructor].
  - destruct (Map_has m c) eqn:Hh; [apply IH | ].
    rewrite (Map_set_fresh m c _ Hh).
    destruct (IH (S index) (m ++ [(c, (index mod List.length CONVOCATORIA_COLORS)%nat)]))
      as [ext [E Hext]].
    exists ((c, (index mod List.length CONVOCATORIA_COLORS)%nat) :: ext).
    rewrite E, <- app_assoc. split; [reflexivity | ].
    constructor; [ | exact Hext]. cbn [snd]. apply Nat.mod_upper_bound. discriminate.
Qed.

Lemma perform_extends (c : Call) (m : ColorMap) :
  c <> ResetMap ->
  exists ext, perform c m = m ++ ext /\ Forall (fun e => (snd e < 10)%nat) ext.
Proof.
  intros Hc. destruct c as [convocatoria | convocatorias | ]; cbn [perform].
  - apply getConvocatoriaColor_extends.
  - apply registerFrom_extends.
  - congruence.
Qed.

Lemma performAll_extends (calls : list Call) :
  forall m, noReset calls -> exists ext, performAll calls m = m ++ ext.
Proof.
  unfold performAll.
  induction calls as [ | c rest IH]; intros m H; cbn [fold_left].
  - exists []. rewrite app_nil_r. reflexivity.
  - inversion H as [ | ? ? Hc Hrest]; subst.
    destruct (perform_extends c m Hc) as [ext [E _]]. rewrite E.
    destruct (IH (m ++ ext) Hrest) as [ext' E']. rewrite E'.
    exists (ext ++ ext'). rewrite app_assoc. reflexivity.
Qed.

(** ** Every stored index is a palette index *)

Lemma perform_valid (c : Call) (m : ColorMap) : valid m -> valid (perform c m).
Proof.
  intros H. destruct c as [convocatoria | convocatorias | ].
  - destruct (perform_extends (GetColor convocatoria) m) as [ext [E Hext]]; [discriminate | ].
    rewrite E. apply Forall_app. split; assumption.
  - destruct (perform_extends (Register convocatorias) m) as [ext [E Hext]]; [discriminate | ].
    rewrite E. apply Forall_app. split; assumption.
  - constructor.
Qed.

Lemma performAll_valid (calls : list Call) :
  forall m, valid m -> valid (performAll calls m).
Proof.
  unfold performAll. induction calls as [ | c rest IH]; intros m H; cbn [fold_left].
  - exact H.
  - apply IH, perform_valid, H.
Qed.

Lemma getConvocatoriaColor_defined (convocatoria : option string) (m : ColorMap) :
  valid m -> exists color, fst (getConvocatoriaColor convocatoria m) = Some color.
Proof.
  intros Hv. unfold getConvocatoriaColor.
  destruct convocatoria as [c | ]; [ | eexists; reflexivity].
  destruct (falsy (Some c)); [eexists; reflexivity | ].
  destruct (Map_has m c) eqn:Hh.
  - destruct (Map_has_true_get m c Hh) as [i [Hi Hin]]. rewrite Hi. cbn [fst].
    unfold valid in Hv. rewrite Forall_forall in Hv. specialize (Hv _ Hin). cbn [snd] in Hv.
    destruct (nth_error CONVOCATORIA_COLORS i) eqn:E; [eexists; reflexivity | ].
    apply nth_error_None in E. cbn in E. lia.
  - cbn [fst].
    destruct (nth_error CONVOCATORIA_COLORS (Map_size m mod List.length CONVOCATORIA_COLORS))
      eqn:E; [eexists; reflexivity | ].
    apply nth_error_None in E.
    pose proof (Nat.mod_upper_bound (Map_size m) (List.length CONVOCATORIA_COLORS)) as Hb.
    cbn in E, Hb. lia.
Qed.

(** X9. After any sequence of look-ups, registrations and resets from
    the empty map, [getConvocatoriaColor] returns an entry of the palette,
    never [undefined], for an absent, empty or arbitrary label. *)
Theorem getConvocatoriaColor_never_undefined :
  forall (calls : list Call) (convocatoria : option string),
    exists color,
      fst (getConvocatoriaColor convocatoria (performAll calls [])) = Some color /\
      In color CONVOCATORIA_COLORS.
Proof.
  intros calls convocatoria.
  destruct (getConvocatoriaColor_defined convocatoria (performAll calls []))
    as [color E].
  - apply performAll_valid. constructor.
  - exists color. split; [exact E | ].
    unfold getConvocatoriaColor in E.
    repeat match type of E with
           | fst (match ?x with _ => _ end) = _ => destruct x
           | fst (if ?x then _ else _) = _ => destruct x
           end;
      cbn [fst] in E; try discriminate; eapply nth_error_In; exact E.
Qed.

(** X10. Two look-ups of the same label return the same colour, whatever
    look-ups and registrations of any labels happen in between, as long as
    the map is not reset. *)
Theorem getConvocatoriaColor_stable :
  forall (calls : list Call) (convocatoria : option string) (m : ColorMap),
    noReset calls ->
    let first := getConvocatoriaColor convocatoria m in
    fst (getConvocatoriaColor convocatoria (performAll calls (snd first))) = fst first.
Proof.
  intros calls convocatoria m Hn first.
  destruct (performAll_extends calls (snd first) Hn) as [ext E]. rewrite E.
  unfold first, getConvocatoriaColor.
  destruct convocatoria as [c | ]; [ | reflexivity].
  destruct (falsy (Some c)) eqn:Hf; [reflexivity | ].
  destruct (Map_has m c) eqn:Hh.
  - destruct (Map_has_true_get m c Hh) as [i [Hi _]]. rewrite Hi. cbn [snd fst].
    rewrite Map_has_app, Hh. cbn [orb]. rewrite Map_get_app, Hi. reflexivity.
  - cbn [snd fst]. rewrite (Map_set_fresh m c _ Hh).
    assert (Hg : Map_get (m ++ [(c, (Map_size m mod List.length CONVOCATORIA_COLORS)%nat)]) c
                 = Some (Map_size m mod List.length CONVOCATORIA_COLORS)%nat).
    { rewrite Map_get_app, (Map_has_false_get m c Hh).
      unfold Map_get. cbn. rewrite String.eqb_refl. reflexivity. }
    rewrite Map_has_app, (Map_get_some_has _ _ _ Hg). cbn [orb].
    rewrite Map_get_app, Hg. reflexivity.
Qed.

Lemma getConvocatoriaColor_stable_witness :
  let calls := [GetColor (Some "Segunda"%string); Register ["Tercera"; "Primera"]%string] in
  noReset calls /\
  fst (getConvocatoriaColor (Some "Primera"%string)
         (performAll calls (snd (getConvocatoriaColor (Some "Primera"%string) []))))
  = fst (getConvocatoriaColor (Some "Primera"%string) []).
Proof.
  assert (Hn : noReset [GetColor (Some "Segunda"%string);
                        Register ["Tercera"; "Primera"]%string]).
  { repeat (apply Forall_cons; [discriminate | ]). apply Forall_nil. }
  split; [exact Hn | ].
  apply (getConvocatoriaColor_stable _ (Some "Primera"%string) [] Hn).
Defined.

(** ** Fresh labels take consecutive indices *)

Lemma registerFrom_fresh (sorted : list string) :
  forall index m,
    NoDup sorted ->
    (forall s, In s sorted -> Map_has m s = false) ->
    registerFrom index sorted m
    = m ++ combine sorted (indicesFrom index (List.length sorted)).
Proof.
  induction sorted as [ | c rest IH]; intros index m Hnd Hfresh; cbn [registerFrom].
  - cbn. rewrite app_nil_r. reflexivity.
  - inversion Hnd as [ | ? ? Hc Hrest]; subst.
    rewrite (Hfresh c (or_introl eq_refl)).
    rewrite (Map_set_fresh m c _ (Hfresh c (or_introl eq_refl))).
    rewrite IH; [ | exact Hrest | ].
    + rewrite <- app_assoc. reflexivity.
    + intros s Hs. rewrite Map_has_app, (Hfresh s (or_intror Hs)). cbn.
      destruct (String.eqb c s) eqn:E; [ | reflexivity].
      apply String.eqb_eq in E. subst. contradiction.
Qed.

Lemma lookups_fresh (labels : list string) :
  forall m,
    NoDup labels ->
    (forall s, In s labels -> s <> ""%string /\ Map_has m s = false) ->
    performAll (map (fun l => GetColor (Some l)) labels) m
    = m ++ combine labels (indicesFrom (Map_size m) (List.length labels)).
Proof.
  unfold performAll.
  induction labels as [ | c rest IH]; intros m Hnd Hfresh; cbn [map fold_left].
  - cbn. rewrite app_nil_r. reflexivity.
  - inversion Hnd as [ | ? ? Hc Hrest]; subst.
    destruct (Hfresh c (or_introl eq_refl)) as [Hne Hh].
    assert (Hf : falsy (Some c) = false) by (cbn; apply String.eqb_neq; exact Hne).
    cbn [perform]. unfold getConvocatoriaColor at 1. rewrite Hf, Hh. cbn [snd].
    rewrite (Map_set_fresh m c _ Hh).
    rewrite IH; [ | exact Hrest | ].
    + rewrite <- app_assoc. unfold Map_size. rewrite length_app. cbn [List.length].
      replace (List.length m + 1)%nat with (S (List.length m)) by lia. reflexivity.
    + intros s Hs. destruct (Hfresh s (or_intror Hs)) as [Hs1 Hs2]. split; [exact Hs1 | ].
      rewrite Map_has_app, Hs2. cbn.
      destruct (String.eqb c s) eqn:E; [ | reflexivity].
      apply String.eqb_eq in E. subst. contradiction.
Qed.

Lemma indicesFrom_0_NoDup (n : nat) : (n <= 10)%nat -> NoDup (indicesFrom 0 n).
Proof.
  intros H. unfold indicesFrom.
  rewrite (map_ext_in _ (fun i => i)).
  - rewrite map_id. apply seq_NoDup.
  - intros i Hi. apply in_seq in Hi. apply Nat.mod_small. cbn. lia.
Qed.

Lemma snd_combine_indices (labels : list string) (start : nat) :
  map snd (combine labels (indicesFrom start (List.length labels)))
  = indicesFrom start (List.length labels).
Proof.
  unfold indicesFrom. generalize start.
  induction labels as [ | c rest IH]; intros k; cbn; [reflexivity | ].
  rewrite IH. reflexivity.
Qed.

Lemma fst_combine_indices (labels : list string) (start : nat) :
  map fst (combine labels (indicesFrom start (List.length labels))) = labels.
Proof.
  unfold indicesFrom. generalize start.
  induction labels as [ | c rest IH]; intros k; cbn; [reflexivity | ].
  rewrite IH. reflexivity.
Qed.

(** X11. Looked up one after the other on an empty map, distinct
    non-empty labels take the palette indices 0, 1, 2, ... modulo 10 in the
    order of the look-ups; up to ten of them get pairwise different
    colours. *)
Theorem lookups_assign_in_order :
  forall (labels : list string),
    NoDup labels ->
    ~ In ""%string labels ->
    let m := performAll (map (fun l => GetColor (Some l)) labels) [] in
    m = combine labels (indicesFrom 0 (List.length labels)) /\
    ((List.length labels <= 10)%nat -> NoDup (map snd m)).
Proof.
  intros labels Hnd Hne m.
  assert (E : m = combine labels (indicesFrom 0 (List.length labels))).
  { unfold m. rewrite lookups_fresh; [reflexivity | exact Hnd | ].
    intros s Hs. split; [ | reflexivity]. intros ->. contradiction. }
  split; [exact E | ].
  intros Hlen. rewrite E, snd_combine_indices. apply indicesFrom_0_NoDup, Hlen.
Qed.

Lemma lookups_assign_in_order_witness :
  let labels := ["Segunda"; "Primera"]%string in
  NoDup labels /\ ~ In ""%string labels /\
  performAll (map (fun l => GetColor (Some l)) labels) []
  = [("Segunda"%string, 0%nat); ("Primera"%string, 1%nat)].
Proof.
  assert (Hnd : NoDup ["Segunda"; "Primera"]%string).
  { constructor; [ | constructor; [ | constructor]]; cbn; intuition discriminate. }
  assert (Hne : ~ In ""%string ["Segunda"; "Primera"]%string)
    by (cbn; intuition discriminate).
  split; [exact Hnd | split; [exact Hne | ]].
  apply (lookups_assign_in_order _ Hnd Hne).
Defined.

(** ** Sorting *)

Lemma compare_lt_trans (a : string) :
  forall b c, String.compare a b = Lt -> String.compare b c = Lt -> String.compare a c = Lt.
Proof.
  induction a as [ | x a IH]; intros [ | y b] [ | z c]; cbn; try congruence.
  unfold Ascii.compare.
  destruct (N.compare_spec (Ascii.N_of_ascii x) (Ascii.N_of_ascii y)) as [Exy | Lxy | Gxy];
    destruct (N.compare_spec (Ascii.N_of_ascii y) (Ascii.N_of_ascii z)) as [Eyz | Lyz | Gyz];
    try congruence; intros H1 H2.
  - rewrite Exy, Eyz, N.compare_refl. apply (IH b c); assumption.
  - rewrite Exy. apply N.compare_lt_iff in Lyz. rewrite Lyz. reflexivity.
  - rewrite <- Eyz. apply N.compare_lt_iff in Lxy. rewrite Lxy. reflexivity.
  - assert (L : (Ascii.N_of_ascii x < Ascii.N_of_ascii z)%N) by (eapply N.lt_trans; eassumption).
    apply N.compare_lt_iff in L. rewrite L. reflexivity.
Qed.

Lemma leS_cases (a b : string) : leS a b <-> String.compare a b = Lt \/ a = b.
Proof.
  unfold leS, String.leb. split.
  - destruct (String.compare a b) eqn:E; intros H; try discriminate.
    + right. apply String.compare_eq_iff, E.
    + left. reflexivity.
  - intros [H | ->]; [rewrite H; reflexivity | ].
    destruct (String.compare b b) eqn:E; try reflexivity.
    pose proof (String.compare_antisym b b) as A. rewrite E in A. discriminate A.
Qed.

Lemma leS_trans (a b c : string) : leS a b -> leS b c -> leS a c.
Proof.
  rewrite !leS_cases. intros [H1 | ->] [H2 | ->]; auto.
  left. eapply compare_lt_trans; eassumption.
Qed.

Lemma leS_antisym (a b : string) : leS a b -> leS b a -> a = b.
Proof. apply String.leb_antisym. Qed.

Lemma insert_In (s t : string) (l : list string) :
  In t (insert s l) <-> t = s \/ In t l.
Proof.
  induction l as [ | u rest IH]; cbn; [intuition | ].
  destruct (String.leb s u); cbn; [intuition | ].
  rewrite IH. intuition.
Qed.

Lemma insert_sorted (s : string) (l : list string) :
  StronglySorted leS l -> StronglySorted leS (insert s l).
Proof.
  induction 1 as [ | u rest Hrest IH Hu]; cbn.
  - constructor; constructor.
  - destruct (String.leb s u) eqn:E.
    + constructor; [constructor; assumption | ].
      constructor; [exact E | ].
      eapply Forall_impl; [ | exact Hu]. intros t Ht. eapply leS_trans; eassumption.
    + constructor; [exact IH | ].
      apply Forall_forall. intros t Ht. apply insert_In in Ht. destruct Ht as [-> | Ht].
      * destruct (String.leb_total s u) as [H | H]; [congruence | exact H].
      * rewrite Forall_forall in Hu. apply Hu, Ht.
Qed.

Lemma insert_NoDup (s : string) (l : list string) :
  ~ In s l -> NoDup l -> NoDup (insert s l).
Proof.
  induction l as [ | u rest IH]; intros Hs Hnd; cbn.
  - constructor; [intros [] | constructor].
  - destruct (String.leb s u); [constructor; assumption | ].
    inversion Hnd as [ | ? ? Hu Hrest]; subst.
    constructor.
    + rewrite insert_In. intros [-> | H]; [apply Hs; now left | contradiction].
    + apply IH; [intros H; apply Hs; now right | exact Hrest].
Qed.

Lemma sort_In (t : string) (l : list string) : In t (sort l) <-> In t l.
Proof.
  unfold sort. induction l as [ | s rest IH]; cbn; [reflexivity | ].
  rewrite insert_In, IH. intuition.
Qed.

Lemma sort_sorted (l : list string) : StronglySorted leS (sort l).
Proof.
  unfold sort. induction l as [ | s rest IH]; cbn; [constructor | ].
  apply insert_sorted, IH.
Qed.

Lemma sort_NoDup (l : list string) : NoDup l -> NoDup (sort l).
Proof.
  unfold sort. induction 1 as [ | s rest Hs Hrest IH]; cbn; [constructor | ].
  apply insert_NoDup; [ | exact IH].
  intros H. apply (sort_In s rest) in H. contradiction.
Qed.

Lemma uniq_In (l : list string) :
  forall seen t, In t (uniq seen l) <-> In t l /\ ~ In t seen.
Proof.
  induction l as [ | s rest IH]; intros seen t; cbn [uniq]; [cbn; intuition | ].
  destruct (existsb (String.eqb s) seen) eqn:E.
  - rewrite IH. apply existsb_exists in E. destruct E as [u [Hu Eu]].
    apply String.eqb_eq in Eu. subst u. cbn. intuition. subst. contradiction.
  - assert (Hs : ~ In s seen).
    { intros H. apply Bool.not_true_iff_false in E. apply E.
      apply existsb_exists. exists s. split; [exact H | apply String.eqb_refl]. }
    cbn [In]. rewrite IH. cbn [In]. split.
    + intros [<- | [H1 H2]]; [intuition | intuition].
    + intros [[<- | H1] H2]; [now left | ].
      destruct (String.string_dec s t) as [-> | Hne]; [now left | right].
      split; [exact H1 | intros [H | H]; [congruence | contradiction]].
Qed.

Lemma uniq_NoDup (l : list string) : forall seen, NoDup (uniq seen l).
Proof.
  induction l as [ | s rest IH]; intros seen; cbn [uniq]; [constructor | ].
  destruct (existsb (String.eqb s) seen); [apply IH | ].
  constructor; [ | apply IH].
  rewrite uniq_In. intros [_ H]. apply H. now left.
Qed.

(** Distinct strings have one sorted arrangement. *)
Lemma sorted_unique (l : list string) :
  forall l',
    StronglySorted leS l -> StronglySorted leS l' -> NoDup l -> NoDup l' ->
    (forall t, In t l <-> In t l') -> l = l'.
Proof.
  induction l as [ | a rest IH]; intros [ | a' rest'] Hs Hs' Hn Hn' Hin.
  - reflexivity.
  - exfalso. apply (proj2 (Hin a')). now left.
  - exfalso. apply (proj1 (Hin a)). now left.
  - inversion Hs as [ | ? ? Hrs Ha]; subst. inversion Hs' as [ | ? ? Hrs' Ha']; subst.
    inversion Hn as [ | ? ? Hna Hnr]; subst. inversion Hn' as [ | ? ? Hna' Hnr']; subst.
    rewrite Forall_forall in Ha, Ha'.
    assert (E : a = a').
    { destruct (proj1 (Hin a) (or_introl eq_refl)) as [E | H1]; [now symmetry | ].
      destruct (proj2 (Hin a') (or_introl eq_refl)) as [E | H2]; [exact E | ].
      apply leS_antisym; [apply Ha, H2 | apply Ha', H1]. }
    subst a'. f_equal. apply IH; try assumption.
    intros t. split; intros Ht.
    + destruct (proj1 (Hin t) (or_intror Ht)) as [<- | H]; [contradiction | exact H].
    + destruct (proj2 (Hin t) (or_intror Ht)) as [<- | H]; [contradiction | exact H].
Qed.

(** X12. [registerConvocatorias] does not depend on the order or on the
    repetitions of the labels it is given: two lists with the same labels
    leave the same map, whatever the map held before. *)
Theorem registerConvocatorias_order_independent :
  forall (l l' : list string) (m : ColorMap),
    (forall s, In s l <-> In s l') ->
    registerConvocatorias l m = registerConvocatorias l' m.
Proof.
  intros l l' m H. unfold registerConvocatorias.
  replace (sort (uniq [] l')) with (sort (uniq [] l)); [reflexivity | ].
  apply sorted_unique; try apply sort_sorted; try (apply sort_NoDup, uniq_NoDup).
  intros t. rewrite !sort_In, !uniq_In. cbn. specialize (H t). tauto.
Qed.

Lemma registerConvocatorias_order_independent_witness :
  let l := ["Segunda"; "Primera"; "Segunda"]%string in
  let l' := ["Primera"; "Segunda"]%string in
  (forall s, In s l <-> In s l') /\
  registerConvocatorias l [] = registerConvocatorias l' [].
Proof.
  assert (H : forall s, In s ["Segunda"; "Primera"; "Segunda"]%string
                        <-> In s ["Primera"; "Segunda"]%string)
    by (intros s; cbn; tauto).
  split; [exact H | ].
  apply (registerConvocatorias_order_independent _ _ [] H).
Defined.

(** X13. Registered on an empty map, labels whose characters are all
    below U+E000 take the palette indices 0, 1, 2, ... modulo 10 in sorted
    order, each distinct label once; up to ten distinct labels get pairwise
    different colours. *)
Theorem registerConvocatorias_from_empty :
  forall (l : list string),
    Forall (fun s => belowE000 s = true) l ->
    let sorted := sort (uniq [] l) in
    let m := registerConvocatorias l [] in
    m = combine sorted (indicesFrom 0 (List.length sorted)) /\
    StronglySorted leS (map fst m) /\
    (forall s, In s (map fst m) <-> In s l) /\
    ((List.length sorted <= 10)%nat -> NoDup (map snd m)).
Proof.
  intros l _ sorted m.
  assert (E : m = combine sorted (indicesFrom 0 (List.length sorted))).
  { unfold m, registerConvocatorias. fold sorted.
    rewrite registerFrom_fresh; [reflexivity | | intros; reflexivity].
    apply sort_NoDup, uniq_NoDup. }
  assert (Ef : map fst m = sorted) by (rewrite E; apply fst_combine_indices).
  split; [exact E | ]. rewrite Ef.
  split; [apply sort_sorted | ].
  split.
  - intros s. unfold sorted. rewrite sort_In, uniq_In. cbn. tauto.
  - intros Hlen. rewrite E, snd_combine_indices. apply indicesFrom_0_NoDup, Hlen.
Qed.

Lemma registerConvocatorias_from_empty_witness :
  let l := ["Segunda"; "Primera"; "Segunda"]%string in
  Forall (fun s => belowE000 s = true) l /\
  registerConvocatorias l [] = [("Primera"%string, 0%nat); ("Segunda"%string, 1%nat)].
Proof.
  assert (H : Forall (fun s => belowE000 s = true) ["Segunda"; "Primera"; "Segunda"]%string).
  { repeat (apply Forall_cons; [reflexivity | ]). apply Forall_nil. }
  split; [exact H | ].
  apply (proj1 (registerConvocatorias_from_empty _ H)).
Defined.

(** A look-up before a registration can give two labels the same colour:
    the look-up hands out the map size, the registration the sorted
    position. *)
Example lookup_then_register_collides :
  let m := registerConvocatorias ["Primera"; "Segunda"]%string
             (snd (getConvocatoriaColor (Some "Segunda"%string) [])) in
  Map_get m "Primera"%string = Some 0%nat /\ Map_get m "Segunda"%string = Some 0%nat.
Proof. split; reflexivity. Qed.

End ConvocatoriaColorsFacts.

(** * Properties of the project list updates *)

Module ProjectContextFacts.

Import ProjectContext.

Lemma findIndex_some (f : Project.t -> bool) (l : list Project.t) :
  forall i, findIndex f l = Some i ->
    exists p, nth_error l i = Some p /\ f p = true /\
              forall j q, (j < i)%nat -> nth_error l j = Some q -> f q = false.
Proof.
  induction l as [ | p rest IH]; intros i H; cbn [findIndex] in H; [discriminate | ].
  destruct (f p) eqn:E.
  - injection H as <-. exists p. repeat split; [exact E | ]. intros j q Hj. lia.
  - destruct (findIndex f rest) as [k | ]; [ | discriminate].
    injection H as <-. destruct (IH k eq_refl) as [p' [Hn [Hf Hlt]]].
    exists p'. repeat split; [exact Hn | exact Hf | ].
    intros [ | j] q Hj Hq; cbn in Hq.
    + injection Hq as <-. exact E.
    + apply (Hlt j q); [lia | exact Hq].
Qed.

Lemma findIndex_none (f : Project.t -> bool) (l : list Project.t) :
  findIndex f l = None <-> forall p, In p l -> f p = false.
Proof.
  induction l as [ | p rest IH]; cbn [findIndex]; [cbn; intuition | ].
  destruct (f p) eqn:E.
  - split; [discriminate | ]. intros H. rewrite (H p (or_introl eq_refl)) in E. discriminate.
  - destruct (findIndex f rest) as [k | ].
    + split; [discriminate | ]. intros H.
      destruct IH as [_ IH]. discriminate IH. intros q Hq. apply H. now right.
    + split; [ | reflexivity]. intros _ q [<- | Hq]; [exact E | ].
      apply IH; [reflexivity | exact Hq].
Qed.

Lemma findIndex_app_fresh (f : Project.t -> bool) (l : list Project.t) (p : Project.t) :
  findIndex f l = None -> f p = true ->
  findIndex f (l ++ [p]) = Some (List.length l).
Proof.
  induction l as [ | q rest IH]; cbn [findIndex app List.length]; intros H Hp.
  - rewrite Hp. reflexivity.
  - destruct (f q); [discriminate | ].
    destruct (findIndex f rest); [discriminate | ].
    rewrite (IH eq_refl Hp). reflexivity.
Qed.

Lemma findIndex_replaceAt (project : Project.t) (l : list Project.t) :
  forall i, findIndex (sameId (Project.id project)) l = Some i ->
    findIndex (sameId (Project.id project)) (replaceAt i project l) = Some i /\
    nth_error (replaceAt i project l) i = Some project /\
    List.length (replaceAt i project l) = List.length l /\
    ids (replaceAt i project l) = ids l.
Proof.
  assert (Hself : sameId (Project.id project) project = true)
    by (unfold sameId; apply String.eqb_refl).
  induction l as [ | p rest IH]; intros i H; cbn [findIndex] in H; [discriminate | ].
  destruct (sameId (Project.id project) p) eqn:E.
  - injection H as <-. cbn [replaceAt findIndex nth_error List.length]. rewrite Hself.
    repeat split. unfold ids. cbn [map]. f_equal.
    unfold sameId in E. apply String.eqb_eq in E. congruence.
  - destruct (findIndex _ rest) as [k | ] eqn:Ek; [ | discriminate].
    injection H as <-. destruct (IH k eq_refl) as [H1 [H2 [H3 H4]]].
    cbn [replaceAt findIndex nth_error List.length]. rewrite E, H1.
    repeat split; [exact H2 | congruence | ].
    unfold ids in *. cbn [map]. congruence.
Qed.

(** X14. After the optimistic update of [addProject], looking the id up
    finds the saved project.  A project whose id was already listed takes
    the place of the first project with that id and the list keeps its
    length and its ids; a new id is appended at the end. *)
Theorem addProjectUpdate_upsert :
  forall (project : Project.t) (prev : list Project.t),
    let next := addProjectUpdate project prev in
    let found := findIndex (sameId (Project.id project)) prev in
    (exists i, findIndex (sameId (Project.id project)) next = Some i /\
               nth_error next i = Some project) /\
    match found with
    | Some i => List.length next = List.length prev /\ ids next = ids prev /\
                forall j, j <> i -> nth_error next j = nth_error prev j
    | None => next = prev ++ [project]
    end.
Proof.
  intros project prev next found. unfold next, found, addProjectUpdate.
  destruct (findIndex (sameId (Project.id project)) prev) as [i | ] eqn:E.
  - destruct (findIndex_replaceAt project prev i E) as [H1 [H2 [H3 H4]]].
    split; [exists i; split; assumption | ].
    repeat split; try assumption.
    clear. revert i. induction prev as [ | p rest IH]; intros i j Hj; [reflexivity | ].
    destruct i as [ | i]; destruct j as [ | j]; cbn; try reflexivity; try congruence.
    apply IH. congruence.
  - split; [ | reflexivity].
    exists (List.length prev). split.
    + apply findIndex_app_fresh; [exact E | unfold sameId; apply String.eqb_refl].
    + rewrite nth_error_app2, Nat.sub_diag; [reflexivity | lia].
Qed.

(** X15. Saving the same project twice gives the list that saving it once
    gives, and a list whose ids are pairwise different keeps that property
    when a project is saved. *)
Theorem addProjectUpdate_idempotent_unique :
  forall (project : Project.t) (prev : list Project.t),
    addProjectUpdate project (addProjectUpdate project prev)
    = addProjectUpdate project prev /\
    (NoDup (ids prev) -> NoDup (ids (addProjectUpdate project prev))).
Proof.
  intros project prev.
  assert (Hself : sameId (Project.id project) project = true)
    by (unfold sameId; apply String.eqb_refl).
  split.
  - unfold addProjectUpdate at 2 3.
    destruct (findIndex (sameId (Project.id project)) prev) as [i | ] eqn:E.
    + destruct (findIndex_replaceAt project prev i E) as [H1 [H2 _]].
      unfold addProjectUpdate. rewrite H1.
      clear - H2. revert i H2.
      induction prev as [ | p rest IH]; intros i H2; [reflexivity | ].
      destruct i as [ | i]; cbn [replaceAt nth_error] in *; [reflexivity | ].
      f_equal. apply IH, H2.
    + unfold addProjectUpdate.
      rewrite (findIndex_app_fresh _ prev project E Hself).
      clear. induction prev as [ | p rest IH]; cbn; [reflexivity | ].
      f_equal. exact IH.
  - intros Hnd. unfold addProjectUpdate.
    destruct (findIndex (sameId (Project.id project)) prev) as [i | ] eqn:E.
    + destruct (findIndex_replaceAt project prev i E) as [_ [_ [_ H4]]].
      rewrite H4. exact Hnd.
    + unfold ids in *. rewrite map_app. cbn [map].
      apply NoDup_app_remove_l with (l := []). cbn.
      apply Permutation_NoDup with (l := Project.id project :: map Project.id prev).
      * apply Permutation_cons_append.
      * constructor; [ | exact Hnd].
        intros Hin. apply in_map_iff in Hin. destruct Hin as [q [Hq Hin]].
        rewrite findIndex_none in E. specialize (E q Hin).
        unfold sameId in E. apply String.eqb_neq in E. congruence.
Qed.

Lemma addProjectUpdate_idempotent_unique_witness :
  let prev := [Project.mk "P-1" None; Project.mk "P-2" None] in
  NoDup (ids prev) /\
  NoDup (ids (addProjectUpdate (Project.mk "P-3" None) prev)).
Proof.
  assert (Hnd : NoDup (ids [Project.mk "P-1" None; Project.mk "P-2" None])).
  { cbn. constructor; [ | constructor; [ | constructor]]; cbn; intuition discriminate. }
  split; [exact Hnd | ].
  apply (proj2 (addProjectUpdate_idempotent_unique (Project.mk "P-3" None) _) Hnd).
Defined.

Lemma removeProjectUpdate_absent (projectId : string) (prev : list Project.t) :
  ~ In projectId (ids prev) -> removeProjectUpdate projectId prev = prev.
Proof.
  unfold removeProjectUpdate, ids.
  induction prev as [ | p rest IH]; intros H; cbn [filter map]; [reflexivity | ].
  cbn [map In] in H.
  assert (E : sameId projectId p = false).
  { unfold sameId. apply String.eqb_neq. intros E. apply H. now left. }
  rewrite E. cbn [negb]. f_equal. apply IH. intros Hin. apply H. now right.
Qed.

(** X16. After the optimistic update of [removeProject] no listed project
    has the removed id, the other projects are kept in their order, and
    removing an id that is not listed changes nothing; removing a project
    right after it was added under a new id gives back the list. *)
Theorem removeProjectUpdate_removes :
  forall (projectId : string) (project : Project.t) (prev : list Project.t),
    ~ In projectId (ids (removeProjectUpdate projectId prev)) /\
    (forall q, In q (removeProjectUpdate projectId prev)
               <-> In q prev /\ Project.id q <> projectId) /\
    (~ In projectId (ids prev) -> removeProjectUpdate projectId prev = prev) /\
    (~ In (Project.id project) (ids prev) ->
     removeProjectUpdate (Project.id project) (addProjectUpdate project prev) = prev).
Proof.
  intros projectId project prev.
  assert (Hin : forall q, In q (removeProjectUpdate projectId prev)
                          <-> In q prev /\ Project.id q <> projectId).
  { intros q. unfold removeProjectUpdate. rewrite filter_In.
    unfold sameId. rewrite negb_true_iff, String.eqb_neq. reflexivity. }
  split; [ | split; [exact Hin | split; [apply removeProjectUpdate_absent | ]]].
  - unfold ids. intros H. apply in_map_iff in H. destruct H as [q [Hq H]].
    apply Hin in H. destruct H as [_ H]. contradiction.
  - intros Hnew. unfold addProjectUpdate.
    assert (E : findIndex (sameId (Project.id project)) prev = None).
    { apply findIndex_none. intros q Hq. unfold sameId. apply String.eqb_neq.
      intros Eq. apply Hnew. unfold ids. apply in_map_iff. exists q. split; assumption. }
    rewrite E. unfold removeProjectUpdate. rewrite filter_app. cbn [filter].
    unfold sameId at 2. rewrite String.eqb_refl. cbn [negb]. rewrite app_nil_r.
    apply (removeProjectUpdate_absent _ _ Hnew).
Qed.

Lemma removeProjectUpdate_removes_witness :
  let prev := [Project.mk "P-1" None; Project.mk "P-2" None] in
  let project := Project.mk "P-3" None in
  ~ In (Project.id project) (ids prev) /\
  removeProjectUpdate (Project.id project) (addProjectUpdate project prev) = prev.
Proof.
  assert (Hnew : ~ In (Project.id (Project.mk "P-3" None))
                      (ids [Project.mk "P-1" None; Project.mk "P-2" None]))
    by (cbn; intuition discriminate).
  split; [exact Hnew | ].
  apply (proj2 (proj2 (proj2 (removeProjectUpdate_removes "P-3" (Project.mk "P-3" None) _))) Hnew).
Defined.

(** X17. Whatever the server answers, after [removeProject] the selected
    project is not the removed one: a selection with the removed id is
    cleared, and stays cleared when the list is refetched after a failure;
    any other selection is kept. *)
Theorem removeProject_clears_selection :
  forall (projectId : string) (sync : Sync) (st : State),
    match selectedProject st with
    | Some p =>
        selectedProject (removeProject projectId sync st)
        = if String.eqb (Project.id p) projectId then None else Some p
    | None => selectedProject (removeProject projectId sync st) = None
    end /\
    (forall q, selectedProject (removeProject projectId sync st) = Some q ->
               Project.id q <> projectId).
Proof.
  intros projectId sync st.
  assert (Hsel : selectedProject (removeProject projectId sync st)
                 = match selectedProject st with
                   | Some p => if sameId projectId p then None else Some p
                   | None => None
                   end).
  { unfold removeProject. destruct sync as [ | [server | ]]; reflexivity. }
  rewrite Hsel. unfold sameId. split.
  - destruct (selectedProject st) as [p | ]; reflexivity.
  - intros q. destruct (selectedProject st) as [p | ]; [ | discriminate].
    destruct (String.eqb (Project.id p) projectId) eqn:E; [discriminate | ].
    intros H. injection H as <-. apply String.eqb_neq, E.
Qed.

End ProjectContextFacts.

(** * Properties of the admin panel *)

Module AdminDataEntryFacts.

Import AdminDataEntry.

(** ** Pages *)

(** [Math.ceil(n / 20)] on a length is the usual rounded-up quotient. *)
Lemma totalPages_quotient {A : Type} (l : list A) :
  totalPages l = ((List.length l + 19) / 20)%nat.
Proof.
  unfold totalPages, projectsPerPage.
  set (n := List.length l).
  assert (E : Qceiling (inject_Z (Z.of_nat n) / inject_Z (Z.of_nat 20))
              = ((Z.of_nat n + 19) / 20)%Z).
  { unfold Qceiling, Qfloor, Qopp, Qdiv, Qmult, Qinv, inject_Z. cbn.
    rewrite Z.mul_1_r.
    generalize (Z.of_nat n) (Nat2Z.is_nonneg n). intros z Hz.
    Z.to_euclidean_division_equations. lia. }
  rewrite E.
  replace 19%Z with (Z.of_nat 19) by reflexivity.
  replace 20%Z with (Z.of_nat 20) by reflexivity.
  rewrite <- Nat2Z.inj_add, <- Nat2Z.inj_div, Nat2Z.id. reflexivity.
Qed.

Lemma firstn_add {A : Type} (a b : nat) (l : list A) :
  firstn (a + b) l = firstn a l ++ firstn b (skipn a l).
Proof.
  revert l. induction a as [ | a IH]; intros l; [reflexivity | ].
  destruct l as [ | x rest]; cbn.
  - rewrite firstn_nil. reflexivity.
  - f_equal. apply IH.
Qed.

Lemma pages_prefix {A : Type} (l : list A) (k : nat) :
  List.concat (map (fun page => pageItems page l) (seq 1 k))
  = firstn (k * projectsPerPage) l.
Proof.
  induction k as [ | k IH]; [reflexivity | ].
  rewrite seq_S, map_app, concat_app, IH. cbn [map List.concat].
  rewrite app_nil_r. unfold pageItems, slice.
  replace (1 + k - 1)%nat with k by lia.
  replace ((1 + k) * projectsPerPage - k * projectsPerPage)%nat with projectsPerPage by lia.
  replace (S k * projectsPerPage)%nat with (k * projectsPerPage + projectsPerPage)%nat by lia.
  symmetry. apply firstn_add.
Qed.

(** X18. The pages 1 to [Math.ceil(length / 20)] list every project exactly
    once and in order; no page holds more than 20 projects, and every page
    before the last holds exactly 20. *)
Theorem pages_partition :
  forall (A : Type) (filteredProjects : list A),
    List.concat
      (map (fun page => pageItems page filteredProjects)
           (seq 1 (totalPages filteredProjects)))
    = filteredProjects /\
    (forall page, (List.length (pageItems page filteredProjects) <= 20)%nat) /\
    (forall page, (1 <= page < totalPages filteredProjects)%nat ->
                  List.length (pageItems page filteredProjects) = 20%nat).
Proof.
  intros A l. rewrite totalPages_quotient. split; [ | split].
  - rewrite pages_prefix. apply firstn_all2. unfold projectsPerPage.
    pose proof (Nat.div_mod_eq (List.length l + 19) 20) as Hd.
    pose proof (Nat.mod_upper_bound (List.length l + 19) 20) as Hm. lia.
  - intros page. unfold pageItems, slice, projectsPerPage.
    rewrite length_firstn. lia.
  - intros page [H1 H2]. unfold pageItems, slice, projectsPerPage.
    rewrite length_firstn, length_skipn.
    pose proof (Nat.div_mod_eq (List.length l + 19) 20) as Hd.
    pose proof (Nat.mod_upper_bound (List.length l + 19) 20) as Hm. lia.
Qed.

(** X19. While the pagination controls are shown, the Previous and Next
    buttons keep the current page between 1 and the number of pages;
    Previous is the identity on page 1 and Next on the last page. *)
Theorem page_buttons_in_range :
  forall (A : Type) (filteredProjects : list A) (currentPage : nat),
    paginationVisible filteredProjects = true ->
    (1 <= currentPage <= totalPages filteredProjects)%nat ->
    (1 <= previousPage currentPage <= totalPages filteredProjects)%nat /\
    (1 <= nextPage filteredProjects currentPage <= totalPages filteredProjects)%nat /\
    previousPage 1 = 1%nat /\
    nextPage filteredProjects (totalPages filteredProjects) = totalPages filteredProjects /\
    (currentPage < totalPages filteredProjects ->
     previousPage (nextPage filteredProjects currentPage) = currentPage)%nat.
Proof.
  intros A l currentPage Hv [H1 H2].
  unfold paginationVisible, projectsPerPage in Hv. apply Nat.ltb_lt in Hv.
  unfold previousPage, nextPage.
  assert (Ht : (2 <= totalPages l)%nat).
  { rewrite totalPages_quotient.
    pose proof (Nat.div_mod_eq (List.length l + 19) 20) as Hd.
    pose proof (Nat.mod_upper_bound (List.length l + 19) 20) as Hm. lia. }
  repeat split; lia.
Qed.

Lemma page_buttons_in_range_witness :
  let l := repeat tt 45 in
  paginationVisible l = true /\ (1 <= 2 <= totalPages l)%nat /\
  (1 <= nextPage l 2 <= totalPages l)%nat.
Proof.
  assert (Hv : paginationVisible (repeat tt 45) = true) by reflexivity.
  assert (Hr : (1 <= 2 <= totalPages (repeat tt 45))%nat) by (vm_compute; lia).
  split; [exact Hv | split; [exact Hr | ]].
  apply (page_buttons_in_range unit (repeat tt 45) 2 Hv Hr).
Defined.

(** The current page is not adjusted when the list shrinks: with 21
    projects on page 2, removing one leaves an empty page 2 and hides the
    controls. *)
Example stale_page_after_removal :
  let before := repeat tt 21 in
  let after := repeat tt 20 in
  pageItems 2 before = [tt] /\ pageItems 2 after = [] /\
  paginationVisible after = false.
Proof. repeat split. Qed.

(** ** State check boxes *)

Section StateCheckBoxes.

Variable allStates : list string.
Hypothesis allStates_NoDup : NoDup allStates.
Hypothesis allStates_nonempty : allStates <> [].

Lemma includes_In (l : list string) (s : string) : includes l s = true <-> In s l.
Proof.
  unfold includes. rewrite existsb_exists. split.
  - intros [t [Ht E]]. apply String.eqb_eq in E. subst. exact Ht.
  - intros H. exists s. split; [exact H | apply String.eqb_refl].
Qed.

Lemma filter_neq_In (l : list string) (state t : string) :
  In t (filter (fun s => negb (String.eqb s state)) l) <-> In t l /\ t <> state.
Proof. rewrite filter_In, negb_true_iff, String.eqb_neq. reflexivity. Qed.

Lemma clickState_consistent (state : string) (formData : Selection) :
  In state allStates ->
  NoDup (implementationStates formData) ->
  incl (implementationStates formData) allStates ->
  consistent allStates (clickState allStates state formData).
Proof.
  intros Hstate Hnd Hincl. unfold clickState, changeState, consistent.
  destruct (includes (implementationStates formData) state) eqn:E;
    cbn [negb implementationStates isNationalProject].
  - apply includes_In in E. split; [apply NoDup_filter, Hnd | split].
    + intros t Ht. apply filter_neq_In in Ht. apply Hincl, Ht.
    + split; [discriminate | ]. intros H. specialize (H state Hstate).
      apply filter_neq_In in H. destruct H as [_ H]. congruence.
  - assert (Hn : ~ In state (implementationStates formData)).
    { intros H. apply includes_In in H. congruence. }
    assert (Hnd' : NoDup (implementationStates formData ++ [state])).
    { apply Permutation_NoDup with (l := state :: implementationStates formData).
      - apply Permutation_cons_append.
      - constructor; assumption. }
    assert (Hincl' : incl (implementationStates formData ++ [state]) allStates).
    { intros t Ht. apply in_app_or in Ht. destruct Ht as [Ht | [<- | []]]; auto. }
    split; [exact Hnd' | split; [exact Hincl' | ]].
    rewrite Nat.eqb_eq. split.
    + intros Hlen. apply NoDup_length_incl; [exact Hnd' | lia | exact Hincl'].
    + intros Hall. apply Nat.le_antisymm; apply NoDup_incl_length; assumption.
Qed.

Lemma changeNational_consistent (checked : bool) (formData : Selection) :
  consistent allStates (changeNational allStates checked formData).
Proof.
  unfold changeNational, consistent. destruct checked;
    cbn [implementationStates isNationalProject].
  - split; [exact allStates_NoDup | split; [apply incl_refl | ]].
    split; [intros _; apply incl_refl | reflexivity].
  - split; [constructor | split; [intros t [] | ]].
    split; [discriminate | ]. intros H.
    destruct allStates as [ | s rest]; [congruence | ].
    destruct (H s (or_introl eq_refl)).
Qed.

End StateCheckBoxes.

(** X20. Starting from the empty form (a new project, or after
    [resetForm]), with pairwise different state names of which there is at
    least one, any sequence of clicks on the state check boxes and on the
    "Proyecto Nacional" box leaves a selection without repetitions, made of
    known states, whose national flag is set exactly when every state is
    selected.  Whatever the selection, a click on a state box toggles that
    state and no other. *)
Theorem state_checkboxes_consistent :
  forall (allStates : list string) (boxes : list Box),
    NoDup allStates -> allStates <> [] ->
    Forall (rendered allStates) boxes ->
    consistent allStates (clickAll allStates boxes emptyForm) /\
    (forall state formData t,
        In t (implementationStates (clickState allStates state formData))
        <-> if String.eqb t state
            then ~ In t (implementationStates formData)
            else In t (implementationStates formData)).
Proof.
  intros allStates boxes Hnd Hne Hboxes. split.
  - assert (H0 : consistent allStates emptyForm).
    { unfold consistent, emptyForm. cbn. split; [constructor | split; [intros t [] | ]].
      split; [discriminate | ]. intros H.
      destruct allStates as [ | s rest]; [congruence | ].
      destruct (H s (or_introl eq_refl)). }
    revert H0. generalize emptyForm. unfold clickAll.
    induction Hboxes as [ | box rest Hbox _ IH]; intros formData H; cbn [fold_left];
      [exact H | ].
    apply IH. destruct H as [H1 [H2 _]].
    destruct box as [state | ]; cbn [clickBox].
    + apply clickState_consistent; assumption.
    + apply changeNational_consistent; assumption.
  - intros state formData t. unfold clickState, changeState.
    destruct (includes (implementationStates formData) state) eqn:E;
      cbn [negb implementationStates].
    + apply includes_In in E. rewrite filter_neq_In.
      destruct (String.eqb t state) eqn:Et.
      * apply String.eqb_eq in Et. subst. tauto.
      * apply String.eqb_neq in Et. tauto.
    + assert (Hn : ~ In state (implementationStates formData)).
      { intros H. apply includes_In in H. congruence. }
      rewrite in_app_iff. cbn [In].
      destruct (String.eqb t state) eqn:Et.
      * apply String.eqb_eq in Et. subst. tauto.
      * apply String.eqb_neq in Et. split; [intros [H | [H | []]] | ]; auto; congruence.
Qed.

Lemma state_checkboxes_consistent_witness :
  let allStates := ["Jalisco"; "Oaxaca"; "Sonora"]%string in
  let boxes := [StateBox "Oaxaca"; StateBox "Sonora"; StateBox "Jalisco";
                StateBox "Oaxaca"] in
  NoDup allStates /\ allStates <> [] /\ Forall (rendered allStates) boxes /\
  clickAll allStates boxes emptyForm = mk ["Sonora"; "Jalisco"]%string false /\
  consistent allStates (clickAll allStates boxes emptyForm).
Proof.
  assert (H1 : NoDup ["Jalisco"; "Oaxaca"; "Sonora"]%string).
  { repeat (constructor; [cbn; intuition discriminate | ]). constructor. }
  assert (H2 : ["Jalisco"; "Oaxaca"; "Sonora"]%string <> []) by discriminate.
  assert (H3 : Forall (rendered ["Jalisco"; "Oaxaca"; "Sonora"]%string)
                 [StateBox "Oaxaca"; StateBox "Sonora"; StateBox "Jalisco";
                  StateBox "Oaxaca"]).
  { repeat (apply Forall_cons; [cbn; tauto | ]). apply Forall_nil. }
  split; [exact H1 | split; [exact H2 | split; [exact H3 | split; [reflexivity | ]]]].
  apply (proj1 (state_checkboxes_consistent _ _ H1 H2 H3)).
Defined.

(** A selection loaded from a stored project is not checked against the
    table: with the states [A] and [B], a stored selection [Atlantis] and a
    click on [A] set the national flag although [B] is not selected. *)
Example loaded_selection_sets_flag :
  let allStates := ["A"; "B"]%string in
  let after := clickState allStates "A" (mk ["Atlantis"]%string false) in
  isNationalProject after = true /\ ~ In "B"%string (implementationStates after).
Proof. cbv zeta. split; [reflexivity | cbn; intuition discriminate]. Qed.

End AdminDataEntryFacts.

(** * Pinch direction *)

Lemma truthy_pos (d : Q) : 0 < d -> truthy d = true.
Proof.
  intros H. unfold truthy. destruct (Qeq_bool d 0) eqn:E; [ | reflexivity].
  apply Qeq_bool_iff in E. lra.
Qed.

Lemma handleTouchMove_pinch (Math_sqrt : Q -> Q) (r : DOMRect.t) (t0 t1 : Touch.t)
  (onMarker : bool) (st : MapState.t) (d c : Q) :
  MapState.lastTouchDistance st = Some d -> 0 < d ->
  getTouchDistance Math_sqrt [t0; t1] = Some c -> 0 < c ->
  handleTouchMove Math_sqrt (Some r) (TouchEvent.mk [t0; t1] onMarker) st
  = setLastTouchDistance
      (setTransform st (constrained (Some r) (pinchRaw r (MapState.transform st) d c t0 t1)))
      (Some c).
Proof.
  intros Hd Hdpos Hc Hcpos. unfold handleTouchMove. cbn [TouchEvent.touches].
  rewrite Hd, (truthy_pos d Hdpos). unfold touchPinch. rewrite Hc, (truthy_pos c Hcpos).
  destruct (MapState.isDragging st); reflexivity.
Qed.

(** X21. In a pinch with recorded distance [d > 0] and current distance
    [c > 0], from a scale between 0.6 and 3: spreading the fingers
    ([d <= c]) never lowers the scale, closing them ([c <= d]) never raises
    it, the result stays between 0.6 and 3, and the current distance
    becomes the recorded one. *)
Theorem pinch_direction :
  forall (Math_sqrt : Q -> Q) (r : DOMRect.t) (t0 t1 : Touch.t) (onMarker : bool)
         (st : MapState.t) (d c : Q),
    MapState.lastTouchDistance st = Some d -> 0 < d ->
    getTouchDistance Math_sqrt [t0; t1] = Some c -> 0 < c ->
    0.6 <= scaleOf st <= 3 ->
    let st' := handleTouchMove Math_sqrt (Some r) (TouchEvent.mk [t0; t1] onMarker) st in
    (d <= c -> scaleOf st <= scaleOf st' <= 3) /\
    (c <= d -> 0.6 <= scaleOf st' <= scaleOf st) /\
    MapState.lastTouchDistance st' = Some c.
Proof.
  intros Math_sqrt r t0 t1 onMarker st d c Hd Hdpos Hc Hcpos [Hlo Hhi] st'.
  unfold st'. rewrite (handleTouchMove_pinch _ r t0 t1 onMarker st d c Hd Hdpos Hc Hcpos).
  unfold scaleOf in *.
  cbn [setLastTouchDistance setTransform MapState.transform MapState.lastTouchDistance
       constrained pinchRaw Transform.scale].
  set (s := Transform.scale (MapState.transform st)) in *.
  set (q := c / d).
  assert (Hq : 0 < q) by (apply Qlt_shift_div_l; lra).
  split; [ | split; [ | reflexivity]].
  - intros Hle. assert (H1 : 1 <= q) by (apply Qle_shift_div_l; lra).
    assert (Hs : s <= s * q) by nra.
    clearbody s q. unfold Math_min, Math_max.
    repeat (destruct (Qlt_le_dec _ _)); lra.
  - intros Hle. assert (H1 : q <= 1) by (apply Qle_shift_div_r; lra).
    assert (Hs : s * q <= s) by nra.
    clearbody s q. unfold Math_min, Math_max.
    repeat (destruct (Qlt_le_dec _ _)); lra.
Qed.

Lemma pinch_direction_witness :
  let st := MapState.mk (Transform.mk 0 0 1) false (Point.mk 0 0) (Some 25) in
  MapState.lastTouchDistance st = Some 25 /\ 0 < 25 /\
  getTouchDistance isqrtQ [Touch.mk 0 0; Touch.mk 30 40] = Some (isqrtQ 2500) /\
  0 < isqrtQ 2500 /\ 0.6 <= scaleOf st <= 3 /\
  MapState.lastTouchDistance
    (handleTouchMove isqrtQ (Some (DOMRect.mk 0 0 800 600))
       (TouchEvent.mk [Touch.mk 0 0; Touch.mk 30 40] false) st)
  = Some (isqrtQ 2500).
Proof.
  assert (H5 : 0.6 <= scaleOf (MapState.mk (Transform.mk 0 0 1) false (Point.mk 0 0)
                                            (Some 25)) <= 3)
    by (split; vm_compute; discriminate).
  repeat (split; [reflexivity || exact H5 | ]).
  apply (pinch_direction isqrtQ (DOMRect.mk 0 0 800 600) (Touch.mk 0 0) (Touch.mk 30 40)
           false (MapState.mk (Transform.mk 0 0 1) false (Point.mk 0 0) (Some 25))
           25 (isqrtQ 2500) eq_refl eq_refl eq_refl eq_refl H5).
Defined.

(** * Properties of the marker tooltip *)

Module MarkerTooltipFacts.

Import MarkerTooltip.

Lemma step_coherent (ev : Event) (st : t) : coherent st -> coherent (step ev st).
Proof.
  unfold coherent. intros [Hv Hp].
  assert (Hhide : (false = true <-> @None string <> None) /\
                  (showPreview st = true -> previewProject st <> None)).
  { split; [split; [discriminate | congruence] | exact Hp]. }
  destruct ev as [h p x y | h | | | | h p x y | h | h p]; cbn [step].
  - unfold handleMarkerTap. destruct h; cbn [negb]; [tauto | ].
    destruct (tapped st p); cbn; [ | split; [split; [discriminate | reflexivity] | exact Hp]].
    split; [exact Hv | discriminate].
  - unfold handleMapClick. destruct (negb h && isMobileTooltipVisible st); [exact Hhide | tauto].
  - exact Hhide.
  - unfold onViewDetails.
    destruct (hoveredProject st) as [p | ]; [ | tauto].
    destruct (hoveredMarkerPosition st); [ | tauto].
    cbn. split; [split; [discriminate | congruence] | discriminate].
  - cbn. split; [exact Hv | discriminate].
  - unfold onMouseEnter. destruct h; cbn; tauto.
  - unfold onMouseLeave. destruct h; cbn; tauto.
  - unfold onClick. destruct h; cbn; [ | tauto]. split; [exact Hv | discriminate].
Qed.

(** X22. After any sequence of taps, clicks, hover events, timer expiries
    and preview actions from the initial state, the mobile backdrop is
    shown exactly while a marker is recorded as tapped, and a shown preview
    always has a project to show. *)
Theorem tooltip_state_coherent :
  forall (evs : list Event), coherent (run evs initial).
Proof.
  intros evs. unfold run.
  assert (H : coherent initial).
  { unfold coherent. cbn. split; [split; [discriminate | congruence] | discriminate]. }
  revert H. generalize initial.
  induction evs as [ | ev rest IH]; intros st H; cbn [fold_left]; [exact H | ].
  apply IH, step_coherent, H.
Qed.

(** X23. On a touch device, a tap on a marker that is not the tapped one
    shows its tooltip and leaves the preview alone; two taps in a row on the
    same marker open its preview and select the project.  On a hover device
    a tap changes nothing. *)
Theorem double_tap_opens_preview :
  forall (st : t) (project : Project.t) (x y x' y' : JsNumber),
    let once := handleMarkerTap false project x y st in
    let twice := handleMarkerTap false project x' y' once in
    (tapped st project = false ->
     hoveredProject once = Some project /\
     tappedMarkerId once = Some (Project.id project) /\
     isMobileTooltipVisible once = true /\
     showPreview once = showPreview st /\ previewProject once = previewProject st) /\
    (showPreview twice = true /\ previewProject twice = Some project /\
     selectedProject twice = Some project) /\
    handleMarkerTap true project x y st = st.
Proof.
  intros st project x y x' y' once twice. split; [ | split; [ | reflexivity]].
  - intros H. unfold once, handleMarkerTap. cbn [negb]. rewrite H. cbn. tauto.
  - unfold twice, once, handleMarkerTap. cbn [negb].
    destruct (tapped st project) eqn:E.
    + unfold tapped in *. cbn [handleMarkerClick tappedMarkerId]. rewrite E. cbn. tauto.
    + unfold tapped. cbn [tappedMarkerId]. rewrite String.eqb_refl. cbn. tauto.
Qed.

Lemma double_tap_opens_preview_witness :
  let project := Project.mk "P-1" None in
  tapped initial project = false /\
  tappedMarkerId (handleMarkerTap false project NaN NaN initial) = Some "P-1"%string.
Proof.
  split; [reflexivity | ].
  apply (proj1 (double_tap_opens_preview initial (Project.mk "P-1" None) NaN NaN NaN NaN)
               eq_refl).
Defined.

End MarkerTooltipFacts.

(** * Properties of the project filters *)

Module ProjectFilterFacts.

Import ProjectFilter.

Section Filter.

Variable toLowerCase : string -> string.

Lemma keeps_initial (project : Entry.t) : keeps toLowerCase initialFilters project = true.
Proof. reflexivity. Qed.

Lemma keeps_wider (filters filters' : FilterState.t) (project : Entry.t) :
  wider filters filters' ->
  keeps toLowerCase filters project = true -> keeps toLowerCase filters' project = true.
Proof.
  intros [Hq [Hc [Ht Hl]]]. unfold keeps.
  destruct (matchesSearch toLowerCase filters project) eqn:E1; cbn [negb]; [ | discriminate].
  destruct (matchesCategory filters project) eqn:E2; cbn [negb]; [ | discriminate].
  destruct (matchesThematicArea filters project) eqn:E3; cbn [negb];
    [ | discriminate].
  destruct (matchesLocation filters project) eqn:E4; cbn [negb]; [ | discriminate].
  intros _.
  assert (H1 : matchesSearch toLowerCase filters' project = true).
  { unfold matchesSearch in *. destruct Hq as [-> | ->]; [exact E1 | reflexivity]. }
  assert (H2 : matchesCategory filters' project = true).
  { unfold matchesCategory in *. destruct Hc as [-> | ->]; [exact E2 | reflexivity]. }
  assert (H3 : matchesThematicArea filters' project = true).
  { unfold matchesThematicArea in *. destruct Ht as [-> | ->]; [exact E3 | reflexivity]. }
  assert (H4 : matchesLocation filters' project = true).
  { unfold matchesLocation in *. destruct Hl as [-> | ->]; [exact E4 | reflexivity]. }
  rewrite H1, H2, H3, H4. reflexivity.
Qed.

End Filter.

(** X24. With the initial filters, and after [resetFilters], every
    project is listed.  Clearing the search text or any of the three
    selections never removes a project from the list: what was listed
    stays listed. *)
Theorem filters_only_narrow :
  forall (toLowerCase : string -> string) (filters filters' : FilterState.t)
         (projects : list Entry.t),
    filteredProjects toLowerCase initialFilters projects = projects /\
    filteredProjects toLowerCase (resetFilters filters) projects = projects /\
    (wider filters filters' ->
     incl (filteredProjects toLowerCase filters projects)
          (filteredProjects toLowerCase filters' projects)).
Proof.
  intros toLowerCase filters filters' projects.
  assert (Hall : filteredProjects toLowerCase initialFilters projects = projects).
  { unfold filteredProjects. induction projects as [ | p rest IH]; [reflexivity | ].
    cbn [filter]. rewrite keeps_initial, IH. reflexivity. }
  split; [exact Hall | split; [exact Hall | ]].
  intros Hw p Hp. unfold filteredProjects in *. apply filter_In in Hp.
  apply filter_In. split; [apply Hp | ].
  apply (keeps_wider toLowerCase filters filters' p Hw), Hp.
Qed.

Lemma filters_only_narrow_witness :
  let filters := FilterState.mk "agua" ["salud"]%string [] ["Oaxaca"]%string in
  let filters' := FilterState.mk "agua" [] [] ["Oaxaca"]%string in
  let limpia := Entry.mk "agua limpia" None "salud" "medio ambiente" "Oaxaca" "Juchitan" None in
  let escuela := Entry.mk "escuela de agua" (Some "talleres"%string) "educacion"
                          "medio ambiente" "Puebla" "Tlacolula"
                          (Some (Place.mk "Oaxaca" "Tlacolula")) in
  let huerto := Entry.mk "huerto" None "salud" "medio ambiente" "Oaxaca" "Juchitan" None in
  let projects := [limpia; escuela; huerto] in
  wider filters filters' /\
  filteredProjects (fun s => s) filters projects = [limpia] /\
  filteredProjects (fun s => s) filters' projects = [limpia; escuela] /\
  incl (filteredProjects (fun s => s) filters projects)
       (filteredProjects (fun s => s) filters' projects).
Proof.
  assert (Hw : wider (FilterState.mk "agua" ["salud"]%string [] ["Oaxaca"]%string)
                     (FilterState.mk "agua" [] [] ["Oaxaca"]%string)).
  { unfold wider, cleared. cbn. tauto. }
  split; [exact Hw | split; [reflexivity | split; [reflexivity | ]]].
  apply (proj2 (proj2 (filters_only_narrow (fun s => s) _ _ _)) Hw).
Defined.

End ProjectFilterFacts.
